(** * csv-normalizer: functional dependencies, closure, covers and decomposition

    A shallow embedding of the scripts under
    [skills/csv-normalizer/scripts] ([normalize.py], [analyze.py],
    [transform.py]) and the properties their specification states.

    Conventions.
    - An attribute is a column name, a [string].
    - A Python [set] of attribute names is a [gset string]; a Python list is
      a [list].  [list(s)] for a set [s] enumerates it in an order Python
      leaves unspecified; the embedding uses [elements s], and no statement
      below depends on that order.
    - A [while] loop is a fuelled [Fixpoint] returning [None] when the fuel
      runs out, together with a lemma giving a fuel that always suffices. *)

From Stdlib Require Import ZArith QArith Qround Lqa String Ascii List Lia Permutation.
From stdpp Require Import base option list sets gmap strings sorting pretty.

#[local] Set Warnings "-clear-no-such-hyp,-level-tolerance".

Local Open Scope string_scope.
Local Open Scope list_scope.
Local Open Scope nat_scope.

(** ** Functional dependencies ([normalize.py]) *)

(** The [{"determinant": [...], "dependent": ...}] dictionaries. *)
Record FD := mkFD {
  determinant : list string;
  dependent : string
}.

#[global] Instance FD_eq_dec : EqDecision FD.
Proof. solve_decision. Defined.

Module Closure.

(** The body of the [for fd in fds] loop of [compute_closure]: the state is
    the accumulated [closure] and the [changed] flag. *)
Definition closure_step (st : gset string * bool) (fd : FD) : gset string * bool :=
  let '(closure, changed) := st in
  if bool_decide (list_to_set (determinant fd) ⊆ closure) then
    if bool_decide (dependent fd ∈ closure) then (closure, changed)
    else ({[dependent fd]} ∪ closure, true)
  else (closure, changed).

(** One iteration of the [while changed] loop: [changed = False], then the
    scan over all FDs. *)
Definition closure_pass (fds : list FD) (closure : gset string) : gset string * bool :=
  foldl closure_step (closure, false) fds.

(** [while changed: ...]; [None] when [fuel] iterations were not enough. *)
Fixpoint closure_loop (fuel : nat) (fds : list FD) (closure : gset string)
  : option (gset string) :=
  match fuel with
  | O => None
  | S fuel' =>
      let '(closure', changed) := closure_pass fds closure in
      if changed then closure_loop fuel' fds closure' else Some closure'
  end.

(** [compute_closure(attrs, fds)].  Every pass that reports a change adds a
    dependent that was missing, so [S (length fds)] passes always reach the
    exit of the loop ([closure_loop_terminates]); the [default] is never
    taken. *)
Definition compute_closure (attrs : gset string) (fds : list FD) : gset string :=
  default attrs (closure_loop (S (length fds)) fds attrs).

(** [is_derivable(fd, fd_set)]: the same loop, written out a second time in
    the source, started from [set(fd["determinant"])], followed by the
    membership test. *)
Definition is_derivable (fd : FD) (fd_set : list FD) : bool :=
  bool_decide (dependent fd ∈ compute_closure (list_to_set (determinant fd)) fd_set).

(** A set is closed under [fds] when no FD can add anything to it. *)
Definition closed_under (fds : list FD) (c : gset string) : Prop :=
  ∀ fd, fd ∈ fds → list_to_set (determinant fd) ⊆ c → dependent fd ∈ c.

(** The dependents an FD list can ever add. *)
Definition dependents (fds : list FD) : gset string :=
  list_to_set (map dependent fds).

End Closure.
Import Closure.


(** ** Minimal cover ([normalize.py]) *)

Module Cover.

(** [sorted(xs)] on attribute names: Python orders [str] by code point,
    which on UTF-8 encoded names is the byte-wise order of [String.leb]. *)
Definition sorted (xs : list string) : list string :=
  merge_sort (λ a b, Is_true (String.leb a b)) xs.

(** Step 1 of [compute_minimal_cover]: every FD is copied with its
    determinant sorted. *)
Definition sort_determinant (fd : FD) : FD :=
  mkFD (sorted (determinant fd)) (dependent fd).

(** Step 2: [fd] at index [i] is kept unless it is derivable from
    [minimal[:i] + minimal[i+1:]], the other FDs of the whole list. *)
Definition remove_redundant_fds (minimal : list FD) : list FD :=
  mjoin (imap (λ i fd,
           if is_derivable fd (take i minimal ++ drop (S i) minimal)
           then [] else [fd]) minimal).

(** [[a for a in det if a != attr]] *)
Definition remove_attr (attr : string) (det : list string) : list string :=
  filter (λ a, a ≠ attr) det.

(** Step 3 for one FD: the first attribute whose removal leaves the FD
    derivable from [result] is removed ([break] after the first success). *)
Definition reduce_determinant (result : list FD) (fd : FD) : FD :=
  let det := determinant fd in
  if 1 <? length det then
    match find (λ attr, is_derivable (mkFD (remove_attr attr det) (dependent fd)) result) det with
    | Some attr => mkFD (remove_attr attr det) (dependent fd)
    | None => mkFD det (dependent fd)
    end
  else mkFD det (dependent fd).

Definition compute_minimal_cover (fds : list FD) : list FD :=
  let minimal := map sort_determinant fds in
  let result := remove_redundant_fds minimal in
  map (reduce_determinant result) result.

End Cover.
Import Cover.


(** ** Schema synthesis ([normalize.py]) *)

(** A candidate key of the configuration: [{"columns": [...], "is_minimal": ...}]. *)
Record CandidateKey := mkCK {
  ck_columns : list string;
  is_minimal : bool
}.

(** A table of a decomposition.  [source_fd] is [Some (determinant,
    dependents)] for a table built from an FD group and [None] where the
    source stores [None] or no such entry. *)
Record Table := mkTable {
  name : string;
  columns : list string;
  primary_key : list string;
  source_fd : option (list string * list string)
}.

#[global] Instance CandidateKey_eq_dec : EqDecision CandidateKey.
Proof. solve_decision. Defined.

#[global] Instance Table_eq_dec : EqDecision Table.
Proof. solve_decision. Defined.

Module Synthesis.

(** The attributes an FD list mentions. *)
Definition fd_attrs (fds : list FD) : gset string :=
  ⋃ (map (λ fd, list_to_set (determinant fd) ∪ {[dependent fd]}) fds).

(** [s.replace("_id", "")]: every non-overlapping occurrence, scanning from
    the left; [skip] counts the characters of a match still to be dropped. *)
Fixpoint strip_id (skip : nat) (s : string) : string :=
  match s with
  | EmptyString => EmptyString
  | String c s' =>
      match skip with
      | S k => strip_id k s'
      | O => if String.prefix "_id" s then strip_id 2 s' else String c (strip_id 0 s')
      end
  end.

Definition generate_table_name (key_cols dep_cols : list string) : string :=
  match dep_cols with
  | [d] => d +:+ "s"
  | _ =>
      match key_cols with
      | [k] => strip_id 0 k +:+ "s"
      | _ => String.concat "_" (take 2 key_cols)
      end
  end.

(** [fd_groups[det].append(dep)] on the insertion-ordered [defaultdict]. *)
Fixpoint group_append (det : list string) (dep : string)
    (groups : list (list string * list string)) : list (list string * list string) :=
  match groups with
  | [] => [(det, [dep])]
  | (k, deps) :: rest =>
      if decide (k = det) then (k, deps ++ [dep]) :: rest
      else (k, deps) :: group_append det dep rest
  end.

Definition group_by_determinant (minimal_cover : list FD) : list (list string * list string) :=
  foldl (λ groups fd, group_append (sorted (determinant fd)) (dependent fd) groups)
        [] minimal_cover.

Definition fd_table (g : list string * list string) : Table :=
  let '(det, deps) := g in
  {| name := generate_table_name det deps;
     columns := det ++ deps;
     primary_key := det;
     source_fd := Some (det, deps) |}.

(** [covered_attrs], updated with the columns of every FD table. *)
Definition covered_by (tables : list Table) : gset string :=
  ⋃ (map (λ t, list_to_set (columns t)) tables).

(** [main_table["columns"].extend(uncovered)] on the first table whose
    [source_fd] is [None]; [None] when [next(..., None)] finds no table. *)
Fixpoint extend_main (extra : list string) (tables : list Table) : option (list Table) :=
  match tables with
  | [] => None
  | t :: rest =>
      match source_fd t with
      | None => Some (mkTable (name t) (columns t ++ extra) (primary_key t) None :: rest)
      | Some _ => cons t <$> extend_main extra rest
      end
  end.

Definition decompose_3nf (cols : list string) (fds : list FD)
    (candidate_keys : list CandidateKey) : list Table :=
  let minimal_cover := compute_minimal_cover fds in
  let fd_groups := group_by_determinant minimal_cover in
  let tables := map fd_table fd_groups in
  let covered_attrs := covered_by tables in
  let all_cols : gset string := list_to_set cols in
  let tables :=
    match candidate_keys with
    | ck :: _ =>
        let key_cols : gset string := list_to_set (ck_columns ck) in
        if bool_decide (key_cols ⊆ covered_attrs) then tables
        else tables ++ [mkTable "main_keys" (elements key_cols) (elements key_cols) None]
    | [] => tables
    end in
  let uncovered := all_cols ∖ covered_attrs in
  match candidate_keys with
  | ck :: _ =>
      if bool_decide (uncovered ≠ ∅) then
        match extend_main (elements uncovered) tables with
        | Some tables' => tables'
        | None =>
            tables ++ [mkTable "main" (ck_columns ck ++ elements uncovered) (ck_columns ck) None]
        end
      else tables
  | [] => tables
  end.

(** The FDs of [fds] lying inside a column set: determinant and dependent
    both in [col_set]. *)
Definition relevant (col_set : gset string) (fds : list FD) : list FD :=
  filter (λ fd, list_to_set (determinant fd) ⊆ col_set ∧ dependent fd ∈ col_set) fds.

Definition find_key (cols : list string) (fds : list FD)
    (candidate_keys : list CandidateKey) : list string :=
  let col_set : gset string := list_to_set cols in
  match find (λ ck, bool_decide (list_to_set (ck_columns ck) ⊆ col_set)) candidate_keys with
  | Some ck => ck_columns ck
  | None =>
      let relevant_fds := relevant col_set fds in
      match find (λ fd, bool_decide
                    (col_set ⊆ compute_closure (list_to_set (determinant fd)) relevant_fds))
                 relevant_fds with
      | Some fd => elements (list_to_set (determinant fd) : gset string)
      | None => cols
      end
  end.

(** The nested [is_superkey(det, all_cols, fds)]. *)
Definition is_superkey (det all_cols : gset string) (fds : list FD) : bool :=
  bool_decide (all_cols ⊆ compute_closure det fds).

(** The first FD of [relevant_fds] whose determinant is not a superkey of
    [col_set]: the FD on which [bcnf_decompose] splits. *)
Definition find_violation (col_set : gset string) (relevant_fds : list FD) : option FD :=
  find (λ fd, negb (is_superkey (list_to_set (determinant fd)) col_set relevant_fds))
       relevant_fds.

(** [r1_cols] and [r2_cols]; in [col_set - {dep} | det] the difference binds
    tighter than the union. *)
Definition split_r1 (fd : FD) : gset string :=
  list_to_set (determinant fd) ∪ {[dependent fd]}.
Definition split_r2 (col_set : gset string) (fd : FD) : gset string :=
  (col_set ∖ {[dependent fd]}) ∪ list_to_set (determinant fd).

(** The nested, recursive [bcnf_decompose(cols, fds)].  [fuel] bounds the
    recursion depth; [None] stands for a recursion that does not come back
    within it.  Tables carry no name yet. *)
Fixpoint bcnf_decompose (candidate_keys : list CandidateKey) (fuel : nat)
    (cols : list string) (fds : list FD) : option (list Table) :=
  match fuel with
  | O => None
  | S fuel' =>
      let col_set : gset string := list_to_set cols in
      let relevant_fds := relevant col_set fds in
      match find_violation col_set relevant_fds with
      | Some fd =>
          r1_tables ← bcnf_decompose candidate_keys fuel' (elements (split_r1 fd)) relevant_fds;
          r2_tables ← bcnf_decompose candidate_keys fuel' (elements (split_r2 col_set fd)) relevant_fds;
          Some (r1_tables ++ r2_tables)
      | None => Some [mkTable "" cols (find_key cols fds candidate_keys) None]
      end
  end.

(** The naming loop that closes [decompose_bcnf]. *)
Definition name_tables (tables : list Table) : list Table :=
  map (λ t,
    mkTable
      (if 1 <? length tables then
         generate_table_name (primary_key t)
           (filter (λ c, c ∉ primary_key t) (columns t))
       else "main")
      (columns t) (primary_key t) (source_fd t)) tables.

(** [decompose_bcnf], run with the depth [S (length cols)], which suffices
    whenever the recursion is well founded ([bcnf_decompose_enough]). *)
Definition decompose_bcnf (cols : list string) (fds : list FD)
    (candidate_keys : list CandidateKey) : option (list Table) :=
  name_tables <$> bcnf_decompose candidate_keys (S (length cols)) cols fds.

(** [compute_foreign_keys]; a foreign key is
    (child_table, column, parent_table, parent_column). *)
Record ForeignKey := mkFK {
  child_table : string;
  column : string;
  parent_table : string;
  parent_column : string
}.

Definition compute_foreign_keys (tables : list Table) : list ForeignKey :=
  table ← tables;
  let non_pk_cols := filter (λ c, c ∉ primary_key table) (columns table) in
  other_table ← tables;
  if decide (name other_table = name table) then []
  else
    let other_pk : gset string := list_to_set (primary_key other_table) in
    col ← non_pk_cols;
    if bool_decide (col ∈ other_pk) && (size other_pk =? 1)
    then [mkFK (name table) col (name other_table) col] else [].

End Synthesis.
Import Synthesis.


(** ** Data frames

    The part of pandas the scripts rely on.  A frame is a list of column
    labels and a list of rows; a cell is a scalar or missing ([None], the
    NaN of pandas).  Only equality of scalars matters to grouping, counting
    and de-duplication; sorting needs an order, and any order gives the
    same rows up to permutation. *)

Inductive value :=
  | VInt (z : Z)
  | VStr (s : string).

#[global] Instance value_eq_dec : EqDecision value.
Proof. solve_decision. Defined.

#[global] Instance value_countable : Countable value.
Proof.
  refine (inj_countable' (λ v, match v with VInt z => inl z | VStr s => inr s end)
                         (λ x, match x with inl z => VInt z | inr s => VStr s end) _).
  by intros [].
Defined.

Abbreviation cell := (option value).
Abbreviation row := (list (option value)).

Record Frame := mkFrame {
  df_columns : list string;
  df_rows : list row
}.

#[global] Instance Frame_eq_dec : EqDecision Frame.
Proof. solve_decision. Defined.

(** What the scripts can raise, as far as the embedding follows them. *)
Inductive exn :=
  | KeyError (label : string)
  | ValueError (msg : string)
  | ZeroDivisionError
  | RecursionError.

Inductive result (A : Type) :=
  | Ok (a : A)
  | Raise (e : exn).
Arguments Ok {A} a.
Arguments Raise {A} e.

Module Pandas.

(** Position of the first column carrying the label [c]. *)
Definition col_pos (df : Frame) (c : string) : option nat :=
  fst <$> list_find (λ x, x = c) (df_columns df).

(** The cell of [r] in column [c] (missing when there is no such column). *)
Definition cell_at (df : Frame) (c : string) (r : row) : cell :=
  i ← col_pos df c; mjoin (r !! i).

(** [df[c]] as the list of its cells. *)
Definition series (df : Frame) (c : string) : list cell :=
  map (cell_at df c) (df_rows df).

(** [s.nunique()]: distinct values, missing ones not counted. *)
Definition nunique (s : list cell) : nat :=
  size (list_to_set (omap id s) : gset value).

(** [s.isna().any()] *)
Definition any_na (s : list cell) : bool :=
  existsb (λ c, bool_decide (c = None)) s.

(** [df[cols]] on rows: one cell per requested label, in that order (a
    label asked for twice gives two columns). *)
Definition project (df : Frame) (cols : list string) (r : row) : row :=
  map (λ c, cell_at df c r) cols.

(** [df[cols]]: [KeyError] on the first label that is no column. *)
Definition select (df : Frame) (cols : list string) : result Frame :=
  match find (λ c, bool_decide (c ∉ df_columns df)) cols with
  | Some c => Raise (KeyError c)
  | None => Ok (mkFrame cols (map (project df cols) (df_rows df)))
  end.

(** [drop_duplicates()] keeps the first of equal rows; missing cells count
    as equal to each other. *)
Fixpoint keep_first (seen : list row) (rows : list row) : list row :=
  match rows with
  | [] => []
  | r :: rest =>
      if bool_decide (r ∈ seen) then keep_first seen rest
      else r :: keep_first (r :: seen) rest
  end.

Definition drop_duplicates (df : Frame) : Frame :=
  mkFrame (df_columns df) (keep_first [] (df_rows df)).

(** The order used for sorting: integers before strings, missing last. *)
Definition value_leb (a b : value) : bool :=
  match a, b with
  | VInt x, VInt y => (x <=? y)%Z
  | VInt _, VStr _ => true
  | VStr _, VInt _ => false
  | VStr x, VStr y => String.leb x y
  end.

Definition cell_leb (a b : cell) : bool :=
  match a, b with
  | Some x, Some y => value_leb x y
  | Some _, None => true
  | None, Some _ => false
  | None, None => true
  end.

Fixpoint key_leb (a b : row) : bool :=
  match a, b with
  | [], _ => true
  | _ :: _, [] => false
  | x :: a', y :: b' =>
      if bool_decide (x = y) then key_leb a' b' else cell_leb x y
  end.

(** How often a label occurs among the columns. *)
Definition label_count (df : Frame) (c : string) : nat :=
  length (filter (λ x, x = c) (df_columns df)).

(** The check [sort_values] makes on each label of [by], in order: a label
    that is no column is a [KeyError], a label carried by several columns a
    [ValueError] (not unique). *)
Fixpoint check_labels (df : Frame) (by_ : list string) : option exn :=
  match by_ with
  | [] => None
  | c :: rest =>
      match label_count df c with
      | 0 => Some (KeyError c)
      | 1 => check_labels df rest
      | _ => Some (ValueError ("The column label '" +:+ c +:+ "' is not unique."))
      end
  end.

(** [df.sort_values(by=by_)]; an empty [by_] leaves the frame as it is. *)
Definition sort_values (by_ : list string) (df : Frame) : result Frame :=
  match check_labels df by_ with
  | Some e => Raise e
  | None =>
      Ok (mkFrame (df_columns df)
            (merge_sort (λ a b, Is_true (key_leb (project df by_ a) (project df by_ b)))
                        (df_rows df)))
  end.

End Pandas.
Import Pandas.


(** ** FD discovery and candidate keys ([analyze.py]) *)

(** The dictionary [check_fd] returns.  Its early exit leaves
    ["total_groups"] out. *)
Record FDCheck := mkCheck {
  holds : bool;
  confidence : Q;
  violations : nat;
  total_groups : option nat
}.

(** An entry of the list [detect_fds] returns: the FD, the fields of the
    [check_fd] result spliced in, and the status. *)
Record DetectedFD := mkDetected {
  fd_of : FD;
  check_of : FDCheck;
  status : string
}.

Module Discovery.

(** [round(x, 4)] on the exact value of [x]: the nearest multiple of
    1/10000, ties to the even one.  The source rounds a binary float; the
    two agree except possibly when [x] lies within float error of a tie. *)
Definition round_half_even (q : Q) : Z :=
  let fl := Qfloor q in
  match Qcompare (q - inject_Z fl)%Q (1 # 2)%Q with
  | Lt => fl
  | Gt => (fl + 1)%Z
  | Eq => if Z.even fl then fl else (fl + 1)%Z
  end.

Definition round4 (q : Q) : Q :=
  Qmake (round_half_even (q * inject_Z 10000)%Q) 10000.

(** [violations / total_groups], for [total_groups > 0]. *)
Definition ratio (v t : nat) : Q :=
  Qmake (Z.of_nat v) (Pos.of_nat t).

(** The rows [check_fd] keeps, each as the pair of its determinant cells
    and its dependent cell: all rows when neither side has a missing cell
    anywhere, otherwise the rows with no missing cell in either. *)
Definition clean_rows (df : Frame) (det : list string) (dep : string)
  : list (row * cell) :=
  let pairs := map (λ r, (project df det r, cell_at df dep r)) (df_rows df) in
  if existsb (λ p, any_na (fst p)) pairs || any_na (map snd pairs)
  then filter (λ p, any_na (fst p ++ [snd p]) = false) pairs
  else pairs.

(** [groupby(det)[dep]]: the distinct non-missing dependent values of every
    determinant value; rows with a missing cell in the key form no group. *)
Definition group_insert (groups : gmap row (gset value)) (p : row * cell)
  : gmap row (gset value) :=
  let '(k, d) := p in
  if any_na k then groups
  else <[k := from_option (λ v, {[v]}) ∅ d ∪ default ∅ (groups !! k)]> groups.

Definition groupby_nunique (pairs : list (row * cell)) : gmap row nat :=
  size <$> foldl group_insert ∅ pairs.

Definition check_fd (df : Frame) (det : list string) (dep : string) : FDCheck :=
  let df_clean := clean_rows df det dep in
  match df_clean with
  | [] => mkCheck false 0%Q 0 None
  | _ :: _ =>
      let groups := groupby_nunique df_clean in
      let violations := size (filter (λ kv, 1 < snd kv) groups) in
      let total_groups := size groups in
      let confidence : Q :=
        if 0 <? total_groups then (1 - ratio violations total_groups)%Q else 0%Q in
      mkCheck (violations =? 0) (round4 confidence) violations (Some total_groups)
  end.

(** ["confirmed" if result["confidence"] == 1.0 else "needs_review"] *)
Definition status_of (result : FDCheck) : string :=
  if Qeq_bool (confidence result) 1%Q then "confirmed" else "needs_review".

Definition record_fd (det : list string) (dep : string) (result : FDCheck) : DetectedFD :=
  mkDetected (mkFD det dep) result (status_of result).

(** The first pair of loops of [detect_fds]: single-column determinants. *)
Definition detect_single (df : Frame) (threshold : Q) : list DetectedFD :=
  det_col ← df_columns df;
  dep_col ← df_columns df;
  if decide (det_col = dep_col) then []
  else
    let result := check_fd df [det_col] dep_col in
    if Qle_bool threshold (confidence result)
    then [record_fd [det_col] dep_col result] else [].

(** [itertools.combinations(xs, 2)] *)
Fixpoint combinations2 (xs : list string) : list (string * string) :=
  match xs with
  | [] => []
  | x :: rest => map (pair x) rest ++ combinations2 rest
  end.

(** [any(... for fd in fds if fd["confidence"] == 1.0)] *)
Definition single_determines (fds : list DetectedFD) (a b dep_col : string) : bool :=
  existsb (λ fd,
    Qeq_bool (confidence (check_of fd)) 1%Q &&
    (bool_decide (determinant (fd_of fd) = [a] ∧ dependent (fd_of fd) = dep_col)
     || bool_decide (determinant (fd_of fd) = [b] ∧ dependent (fd_of fd) = dep_col)))
    fds.

(** The body of the second pair of loops, for one pair of columns and one
    dependent, on the list of FDs found so far. *)
Definition detect_pair_step (df : Frame) (threshold : Q) (det_cols : string * string)
    (fds : list DetectedFD) (dep_col : string) : list DetectedFD :=
  let '(a, b) := det_cols in
  if bool_decide (dep_col = a ∨ dep_col = b) then fds
  else
    let result := check_fd df [a; b] dep_col in
    if Qle_bool threshold (confidence result) then
      if single_determines fds a b dep_col then fds
      else fds ++ [record_fd [a; b] dep_col result]
    else fds.

(** [[c for c in columns if df[c].nunique() / len(df) > 0.5]]; the division
    raises on a frame without rows as soon as there is a column. *)
Definition high_card_cols (df : Frame) : result (list string) :=
  match df_columns df, df_rows df with
  | _ :: _, [] => Raise ZeroDivisionError
  | cols, rows =>
      Ok (filter (λ c, Is_true (negb (Qle_bool
                    (Qmake (Z.of_nat (nunique (series df c))) (Pos.of_nat (length rows)))
                    (1 # 2)%Q))) cols)
  end.

Definition detect_fds (df : Frame) (threshold : Q) : result (list DetectedFD) :=
  let fds := detect_single df threshold in
  match high_card_cols df with
  | Raise e => Raise e
  | Ok high =>
      Ok (foldl (λ fds det_cols,
                   foldl (detect_pair_step df threshold det_cols) fds (df_columns df))
                fds (combinations2 high))
  end.

(** [fd["confidence"] == 1.0] *)
Definition is_certain (fd : DetectedFD) : bool :=
  Qeq_bool (confidence (check_of fd)) 1%Q.

(** [find_candidate_keys], in its two parts. *)
Definition all_dependents (fds : list DetectedFD) : gset string :=
  list_to_set (map (λ fd, dependent (fd_of fd)) (filter (λ fd, Is_true (is_certain fd)) fds)).

Definition must_be_in_key (df : Frame) (fds : list DetectedFD) : gset string :=
  list_to_set (df_columns df) ∖ all_dependents fds.

(** The set [determined]: dependents of the certain FDs whose determinant
    lies inside [must_be_in_key]. *)
Definition determined (fds : list DetectedFD) (key : gset string) : gset string :=
  list_to_set (map (λ fd, dependent (fd_of fd))
    (filter (λ fd, Is_true (is_certain fd) ∧ list_to_set (determinant (fd_of fd)) ⊆ key) fds)).

Definition key_from_fds (df : Frame) (fds : list DetectedFD) : list CandidateKey :=
  let cols : gset string := list_to_set (df_columns df) in
  let key := must_be_in_key df fds in
  if bool_decide (key ≠ ∅) then
    if bool_decide (determined fds key ∪ key = cols)
    then [mkCK (sorted (elements key)) true] else []
  else [].

(** [df[col].nunique() == len(df) and not df[col].isna().any()] *)
Definition is_unique_column (df : Frame) (col : string) : bool :=
  (nunique (series df col) =? length (df_rows df)) && negb (any_na (series df col)).

Definition add_unique_column (df : Frame) (keys : list CandidateKey) (col : string)
  : list CandidateKey :=
  if is_unique_column df col then
    if existsb (λ ck, bool_decide ((list_to_set (ck_columns ck) : gset string) = {[col]})) keys
    then keys else keys ++ [mkCK [col] true]
  else keys.

Definition find_candidate_keys (df : Frame) (fds : list DetectedFD) : list CandidateKey :=
  foldl (add_unique_column df) (key_from_fds df fds)
        (elements (list_to_set (df_columns df) : gset string)).

(** The confirmed FDs as the closure engine takes them. *)
Definition confirmed_fds (fds : list DetectedFD) : list FD :=
  map fd_of (filter (λ fd, Is_true (is_certain fd)) fds).

End Discovery.
Import Discovery.


(** ** Running a script: files, printed lines, exits

    A script runs on a world made of the table files under the output
    directory and the lines printed so far.  A run returns, raises, or
    leaves through [sys.exit]; in every case the world it leaves behind is
    part of the result, so that what was written before a failure stays
    visible. *)

Inductive event :=
  | Warning (msg : string)
  | StrictAbort
  | Skipping (table : string) (missing : gset string)
  | Created (table : string) (rows : nat)
  | ForeignKeysValid
  | Unsupported (target : string).

Record World := mkWorld {
  files : gmap string Frame;
  printed : list event
}.

Inductive outcome (A : Type) :=
  | Returned (a : A)
  | Raised (e : exn)
  | Exited (code : Z).
Arguments Returned {A} a.
Arguments Raised {A} e.
Arguments Exited {A} code.

Module Script.

Definition M (A : Type) : Type := World → outcome A * World.

Definition ret {A} (a : A) : M A := λ w, (Returned a, w).

Definition bind {A B} (m : M A) (k : A → M B) : M B :=
  λ w, match m w with
       | (Returned a, w') => k a w'
       | (Raised e, w') => (Raised e, w')
       | (Exited c, w') => (Exited c, w')
       end.

#[global] Instance M_ret : MRet M := @ret.
#[global] Instance M_bind : MBind M := λ A B k m, bind m k.

Definition print (ev : event) : M unit :=
  λ w, (Returned (), mkWorld (files w) (printed w ++ [ev])).

Definition sys_exit {A} (code : Z) : M A := λ w, (Exited code, w).

Definition lift {A} (r : result A) : M A :=
  λ w, match r with Ok a => (Returned a, w) | Raise e => (Raised e, w) end.

(** [tables_path / f"{name}.csv"] *)
Definition table_path (table : string) : string := table +:+ ".csv".

(** [frame.to_csv(path, index=False)]: the file holds the frame. *)
Definition to_csv (path : string) (df : Frame) : M unit :=
  λ w, (Returned (), mkWorld (<[path := df]> (files w)) (printed w)).

(** [path.exists()] followed by [pd.read_csv(path)]. *)
Definition read_csv_if_exists (path : string) : M (option Frame) :=
  λ w, (Returned (files w !! path), w).

(** A [for] loop with an accumulator. *)
Fixpoint for_each {A B} (xs : list A) (body : B → A → M B) (acc : B) : M B :=
  match xs with
  | [] => ret acc
  | x :: rest => acc' ← body acc x; for_each rest body acc'
  end.

End Script.
Import Script.

(** ** Replaying a decomposition ([transform.py]) *)

(** The transform configuration; ["foreign_keys"] may be absent. *)
Record TransformConfig := mkConfig {
  version : string;
  original_columns : list string;
  tables : list Table;
  foreign_keys : option (list ForeignKey)
}.

(** An entry of [results["tables"]]. *)
Record TableResult := mkTableResult {
  tr_name : string;
  tr_rows : nat;
  tr_path : string
}.

Module Replay.

(** [needle in s] on strings. *)
Fixpoint contains (needle s : string) : bool :=
  String.prefix needle s ||
  match s with
  | EmptyString => false
  | String _ s' => contains needle s'
  end.

(** The text an f-string gives a set of names, [{'a', 'b'}], in the
    enumeration order of the set. *)
Definition repr_set (xs : gset string) : string :=
  "{" +:+ String.concat ", " (map (λ x, "'" +:+ x +:+ "'") (elements xs)) +:+ "}".

Definition missing_columns (df : Frame) (config : TransformConfig) : gset string :=
  list_to_set (original_columns config) ∖ list_to_set (df_columns df).

Definition extra_columns (df : Frame) (config : TransformConfig) : gset string :=
  list_to_set (df_columns df) ∖ list_to_set (original_columns config).

Definition validate_input (df : Frame) (config : TransformConfig) : list string :=
  (if bool_decide (missing_columns df config ≠ ∅)
   then ["Missing columns: " +:+ repr_set (missing_columns df config)] else [])
  ++
  (if bool_decide (extra_columns df config ≠ ∅)
   then ["Extra columns (will be ignored): " +:+ repr_set (extra_columns df config)] else []).

(** [[c for c in columns if c in df.columns]] *)
Definition available_cols (df : Frame) (cols : list string) : list string :=
  filter (λ c, c ∈ df_columns df) cols.

(** The body of the loop over [config["tables"]]. *)
Definition transform_table (df : Frame) (results : list TableResult) (t : Table)
  : M (list TableResult) :=
  let available := available_cols df (columns t) in
  if bool_decide (length available ≠ length (columns t)) then
    print (Skipping (name t) (list_to_set (columns t) ∖ list_to_set available)) ;;
    ret results
  else
    selected ← lift (select df (columns t));
    table_df ← lift (sort_values (primary_key t) (drop_duplicates selected));
    to_csv (table_path (name t)) table_df ;;
    print (Created (name t) (length (df_rows table_df))) ;;
    ret (results ++ [mkTableResult (name t) (length (df_rows table_df)) (table_path (name t))]).

(** [set(frame[c].dropna())]; [KeyError] when the frame has no column [c]. *)
Definition column_values (df : Frame) (c : string) : result (gset value) :=
  if bool_decide (c ∈ df_columns df)
  then Ok (list_to_set (omap id (series df c)))
  else Raise (KeyError c).

(** The body of the loop of [validate_foreign_keys]. *)
Definition validate_foreign_key (errors : list string) (fk : ForeignKey) : M (list string) :=
  child ← read_csv_if_exists (table_path (child_table fk));
  parent ← read_csv_if_exists (table_path (parent_table fk));
  match child, parent with
  | Some child_df, Some parent_df =>
      child_values ← lift (column_values child_df (column fk));
      parent_values ← lift (column_values parent_df (parent_column fk));
      let orphans := child_values ∖ parent_values in
      if bool_decide (orphans ≠ ∅) then
        ret (errors ++ [child_table fk +:+ "." +:+ column fk +:+ " has "
                        +:+ pretty (size orphans) +:+ " orphan values not in "
                        +:+ parent_table fk])
      else ret errors
  | _, _ => ret errors
  end.

Definition validate_foreign_keys (fks : list ForeignKey) : M (list string) :=
  for_each fks validate_foreign_key [].

(** The loop over the tables of the configuration. *)
Definition transform_tables (df : Frame) (config : TransformConfig) : M (list TableResult) :=
  for_each (tables config) (transform_table df) [].

(** The check that opens [transform]: every message is printed as a
    warning, and a strict run leaves when one of them contains
    ["Missing"]. *)
Definition check_input (df : Frame) (config : TransformConfig) (strict : bool) : M unit :=
  let errors := validate_input df config in
  for_each errors (λ _ err, print (Warning err)) () ;;
  if strict && existsb (contains "Missing") errors then
    print StrictAbort ;; sys_exit 1
  else ret ().

Definition check_foreign_keys (config : TransformConfig) : M unit :=
  match foreign_keys config with
  | Some fks =>
      fk_errors ← validate_foreign_keys fks;
      match fk_errors with
      | [] => print ForeignKeysValid
      | _ => for_each fk_errors (λ _ err, print (Warning err)) ()
      end
  | None => ret ()
  end.

Definition transform (df : Frame) (config : TransformConfig) (strict : bool)
  : M (list TableResult) :=
  check_input df config strict ;;
  results ← transform_tables df config;
  check_foreign_keys config ;;
  ret results.

End Replay.
Import Replay.

(** ** The synthesis run ([normalize.py]) *)

(** An FD of the normalization configuration; ["status"] and
    ["confidence"] are read with [get]. *)
Record ConfigFD := mkConfigFD {
  cfd : FD;
  cfd_status : option string;
  cfd_confidence : option Q
}.

Record NormalizeConfig := mkNormalizeConfig {
  functional_dependencies : list ConfigFD;
  candidate_keys : list CandidateKey
}.

Module Normalize.

(** [c.upper()] on ASCII letters. *)
Definition upper_ascii (c : ascii) : ascii :=
  let n := nat_of_ascii c in
  if (97 <=? n) && (n <=? 122) then ascii_of_nat (n - 32) else c.

Fixpoint upper (s : string) : string :=
  match s with
  | EmptyString => EmptyString
  | String c s' => String (upper_ascii c) (upper s')
  end.

(** [fd.get("status") == "confirmed" or fd.get("confidence", 0) == 1.0] *)
Definition is_confirmed (fd : ConfigFD) : bool :=
  bool_decide (cfd_status fd = Some "confirmed")
  || Qeq_bool (default 0%Q (cfd_confidence fd)) 1%Q.

Definition generate_transform_config (tables : list Table) (fks : list ForeignKey)
    (original : list string) : TransformConfig :=
  mkConfig "1.0" original
    (map (λ t, mkTable (name t) (columns t) (primary_key t) None) tables)
    (Some fks).

(** The loop that writes one file per table. *)
Definition write_table (df : Frame) (_ : unit) (t : Table) : M unit :=
  selected ← lift (select df (columns t));
  let table_df := drop_duplicates selected in
  to_csv (table_path (name t)) table_df ;;
  print (Created (name t) (length (df_rows table_df))).

Definition decompose (df : Frame) (config : NormalizeConfig) (target_nf : string)
  : M (list Table) :=
  let cols := df_columns df in
  let confirmed := map cfd (filter (λ fd, Is_true (is_confirmed fd)) (functional_dependencies config)) in
  if bool_decide (upper target_nf ∈ ["3NF"; "3"]) then
    ret (decompose_3nf cols confirmed (candidate_keys config))
  else if bool_decide (upper target_nf ∈ ["BCNF"; "BC"]) then
    match decompose_bcnf cols confirmed (candidate_keys config) with
    | Some tables => ret tables
    | None => lift (Raise RecursionError)
    end
  else print (Unsupported target_nf) ;; sys_exit 1.

(** [normalize], up to the table files and the transform configuration;
    the schema, diagram and summary texts it also writes are renderings of
    the same tables and are left out. *)
Definition normalize (df : Frame) (config : NormalizeConfig) (target_nf : string)
  : M TransformConfig :=
  tables ← decompose df config target_nf;
  let fks := compute_foreign_keys tables in
  for_each tables (write_table df) () ;;
  ret (generate_transform_config tables fks (df_columns df)).

End Normalize.
Import Normalize.


(** ** Normal form assessment ([analyze.py]) *)

(** A violation message; the source formats it into a sentence that names
    the column or the FD. *)
Inductive nf_violation :=
  | NonAtomic (col : string)
  | PartialDependency (fd : FD)
  | TransitiveDependency (fd : FD)
  | NonSuperkeyDeterminant (fd : FD).

(** The result of [assess_normal_form]: the level and the four lists of
    violations; the source leaves a level with an empty list out of the
    dictionary it returns. *)
Record NFReport := mkReport {
  current_normal_form : string;
  violations_1nf : list nf_violation;
  violations_2nf : list nf_violation;
  violations_3nf : list nf_violation;
  violations_bcnf : list nf_violation
}.

Module Assessment.

(** [str(v)] matches [[,;|]]: a number never does. *)
Fixpoint has_delimiter_char (s : string) : bool :=
  match s with
  | EmptyString => false
  | String c s' =>
      bool_decide (c = ","%char ∨ c = ";"%char ∨ c = "|"%char) || has_delimiter_char s'
  end.

Definition has_delimiter (v : value) : bool :=
  match v with
  | VInt _ => false
  | VStr s => has_delimiter_char s
  end.

(** [df[col].dropna().head(100).astype(str).str.contains(...).mean() > 0.3];
    the mean of an empty sample is NaN, which is not greater. *)
Definition looks_non_atomic (df : Frame) (col : string) : bool :=
  let sample := take 100 (omap id (series df col)) in
  match sample with
  | [] => false
  | _ :: _ =>
      negb (Qle_bool (Qmake (Z.of_nat (length (filter (λ v, Is_true (has_delimiter v)) sample)))
                            (Pos.of_nat (length sample)))
                     (3 # 10)%Q)
  end.

(** The union of the columns of all candidate keys. *)
Definition key_columns (candidate_keys : list CandidateKey) : gset string :=
  ⋃ (map (λ ck, list_to_set (ck_columns ck)) candidate_keys).

(** [det < set(ck["columns"]) and fd["dependent"] not in ck["columns"]] *)
Definition is_partial (ck : CandidateKey) (fd : FD) : Prop :=
  (list_to_set (determinant fd) : gset string) ⊂ list_to_set (ck_columns ck)
  ∧ dependent fd ∉ ck_columns ck.

(** [not det.intersection(key_cols) and fd["dependent"] not in key_cols] *)
Definition is_transitive (key_cols : gset string) (fd : FD) : Prop :=
  list_to_set (determinant fd) ∩ key_cols = ∅ ∧ dependent fd ∉ key_cols.

(** [any(set(ck["columns"]).issubset(det) for ck in candidate_keys)] *)
Definition contains_key (candidate_keys : list CandidateKey) (fd : FD) : Prop :=
  Exists (λ ck, (list_to_set (ck_columns ck) : gset string) ⊆ list_to_set (determinant fd))
         candidate_keys.

Definition assess_normal_form (df : Frame) (fds : list DetectedFD)
    (candidate_keys : list CandidateKey) : NFReport :=
  let key_cols := key_columns candidate_keys in
  let confirmed := confirmed_fds fds in
  let v1 := map NonAtomic (filter (λ col, Is_true (looks_non_atomic df col)) (df_columns df)) in
  let v2 :=
    ck ← candidate_keys;
    if 1 <? length (ck_columns ck)
    then map PartialDependency (filter (is_partial ck) confirmed)
    else [] in
  let v3 := map TransitiveDependency (filter (is_transitive key_cols) confirmed) in
  let v4 :=
    map NonSuperkeyDeterminant (filter (λ fd, ¬ contains_key candidate_keys fd) confirmed) in
  let current :=
    match v1, v2, v3, v4 with
    | _ :: _, _, _, _ => "UNF"
    | [], _ :: _, _, _ => "1NF"
    | [], [], _ :: _, _ => "2NF"
    | [], [], [], _ :: _ => "3NF"
    | [], [], [], [] => "BCNF"
    end in
  mkReport current v1 v2 v3 v4.

End Assessment.
Import Assessment.

(** ** Frames and predicates used in the statements below *)

Module Examples.



End Examples.
Import Examples.


(** The table invariant of the data model: the columns are a list without
    repetition that contains the primary key. *)
Definition table_wf (t : Table) : Prop :=
  NoDup (columns t) ∧ primary_key t ⊆ columns t.

#[global] Instance table_wf_dec t : Decision (table_wf t).
Proof. unfold table_wf. apply _. Defined.

(** All columns of the table are columns of the frame. *)
Definition all_present (df : Frame) (t : Table) : Prop :=
  columns t ⊆ df_columns df.

#[global] Instance all_present_dec df t : Decision (all_present df t).
Proof. unfold all_present. apply _. Defined.

(** The rows [df[columns]] keeps after [drop_duplicates()]. *)
Definition distinct_rows (df : Frame) (cols : list string) : list row :=
  keep_first [] (map (project df cols) (df_rows df)).

(** What a replay writes for a table whose columns are all present: the
    distinct projected rows, sorted on the primary key. *)
Definition replayed (df : Frame) (t : Table) : Frame :=
  let table_df := mkFrame (columns t) (distinct_rows df (columns t)) in
  mkFrame (columns t)
    (merge_sort (λ a b, Is_true (key_leb (project table_df (primary_key t) a)
                                         (project table_df (primary_key t) b)))
                (df_rows table_df)).

Definition replay_result (df : Frame) (t : Table) : TableResult :=
  mkTableResult (name t) (length (df_rows (replayed df t))) (table_path (name t)).

(** What the run prints for a table. *)
Definition replay_event (df : Frame) (t : Table) : event :=
  if decide (all_present df t)
  then Created (name t) (length (df_rows (replayed df t)))
  else Skipping (name t)
         (list_to_set (columns t) ∖ list_to_set (available_cols df (columns t))).


(** The dependent values found in the rows whose determinant cells are [k]. *)
Definition partition_values (pairs : list (row * cell)) (k : row) : gset value :=
  list_to_set (omap snd (filter (λ p, fst p = k) pairs)).

(** The FD holds on the rows: rows that agree on the determinant agree on
    the dependent. *)
Definition fd_holds (pairs : list (row * cell)) : Prop :=
  ∀ p q, p ∈ pairs → q ∈ pairs → fst p = fst q → snd p = snd q.

(** The shape of a reported FD: one or two determinant columns, a dependent
    that is another column, and a confidence that reaches the threshold. *)
Definition well_shaped (df : Frame) (threshold : Q) (d : DetectedFD) : Prop :=
  dependent (fd_of d) ∉ determinant (fd_of d)
  ∧ (length (determinant (fd_of d)) = 1 ∨ length (determinant (fd_of d)) = 2)
  ∧ determinant (fd_of d) ⊆ df_columns df
  ∧ dependent (fd_of d) ∈ df_columns df
  ∧ (threshold <= confidence (check_of d))%Q.

(** What the synthesis writes for a table: the distinct projected rows, in
    the order of the data. *)
Definition synthesized (df : Frame) (t : Table) : Frame :=
  mkFrame (columns t) (distinct_rows df (columns t)).

(** The files after the synthesis has written a list of tables. *)
Definition synthesize_all (df : Frame) (fs : gmap string Frame) (ts : list Table)
  : gmap string Frame :=
  foldl (λ fs t, <[table_path (name t) := synthesized df t]> fs) fs ts.


(** * Properties *)

(** ** The closure engine *)

Section ClosureFacts.

Implicit Types (fds : list FD) (c attrs : gset string).

(** One scan of the FDs, started with any flag: the set only grows, by
    dependents of the scanned FDs, and stays inside every closed set that
    contains it; the flag is raised exactly when something was added. *)
Lemma closure_scan_spec fds c ch c' ch' :
  foldl closure_step (c, ch) fds = (c', ch') →
  c ⊆ c' ∧ c' ⊆ c ∪ dependents fds
  ∧ (∀ s, c ⊆ s → closed_under fds s → c' ⊆ s)
  ∧ (ch' = false → ch = false ∧ c' = c
       ∧ ∀ fd, fd ∈ fds → list_to_set (determinant fd) ⊆ c → dependent fd ∈ c)
  ∧ (ch' = true → ch = true ∨ ∃ x, x ∈ dependents fds ∧ x ∉ c ∧ x ∈ c').
Proof.
  revert c ch. induction fds as [|fd fds IH]; intros c ch Hfold; simpl in Hfold.
  - inversion Hfold; subst. unfold dependents, closed_under. simpl.
    repeat split; set_solver.
  - assert (dependents (fd :: fds) = {[dependent fd]} ∪ dependents fds) as -> by done.
    destruct (bool_decide (list_to_set (determinant fd) ⊆ c)) eqn:Hdet; simpl in Hfold.
    + destruct (bool_decide (dependent fd ∈ c)) eqn:Hdep; simpl in Hfold.
      * apply bool_decide_eq_true in Hdet, Hdep.
        destruct (IH _ _ Hfold) as (H1 & H2 & H3 & H4 & H5). clear IH Hfold.
        split; [done|]. split; [clear -H2; set_solver|]. split.
        { intros s Hs Hcl. apply H3; [done|]. intros g Hg. apply Hcl. by right. }
        split.
        { intros Hf. destruct (H4 Hf) as (-> & -> & Hall). repeat split; try done.
          intros g [->|Hg]%elem_of_cons; [done | by apply Hall]. }
        intros Ht. destruct (H5 Ht) as [?|(x & ? & ? & ?)]; [by left|].
        right. exists x. split; [|done]. apply elem_of_union. by right.
      * apply bool_decide_eq_true in Hdet. apply bool_decide_eq_false in Hdep.
        destruct (IH _ _ Hfold) as (H1 & H2 & H3 & H4 & H5). clear IH Hfold.
        split; [clear -H1; set_solver|]. split; [clear -H2; set_solver|]. split.
        { intros s Hs Hcl. apply H3.
          - assert (dependent fd ∈ s) as Hin.
            { apply Hcl; [by left | by etrans]. }
            clear -Hs Hin. set_solver.
          - intros g Hg. apply Hcl. by right. }
        split.
        { intros Hf. destruct (H4 Hf) as (? & _). done. }
        intros _. right. exists (dependent fd). split; [|split; [done|]].
        -- apply elem_of_union. left. by apply elem_of_singleton.
        -- apply H1, elem_of_union. left. by apply elem_of_singleton.
    + apply bool_decide_eq_false in Hdet.
      destruct (IH _ _ Hfold) as (H1 & H2 & H3 & H4 & H5). clear IH Hfold.
      split; [done|]. split; [clear -H2; set_solver|]. split.
      { intros s Hs Hcl. apply H3; [done|]. intros g Hg. apply Hcl. by right. }
      split.
      { intros Hf. destruct (H4 Hf) as (-> & -> & Hall). repeat split; try done.
        intros g [->|Hg]%elem_of_cons; [done | by apply Hall]. }
      intros Ht. destruct (H5 Ht) as [?|(x & ? & ? & ?)]; [by left|].
      right. exists x. split; [|done]. apply elem_of_union. by right.
Qed.

Lemma closure_pass_spec fds c c' ch' :
  closure_pass fds c = (c', ch') →
  c ⊆ c' ∧ c' ⊆ c ∪ dependents fds
  ∧ (∀ s, c ⊆ s → closed_under fds s → c' ⊆ s)
  ∧ (ch' = false → c' = c ∧ closed_under fds c)
  ∧ (ch' = true → ∃ x, x ∈ dependents fds ∧ x ∉ c ∧ x ∈ c').
Proof.
  intros H. destruct (closure_scan_spec _ _ _ _ _ H) as (H1 & H2 & H3 & H4 & H5).
  repeat split; try done.
  - by destruct (H4 H0) as (_ & ? & _).
  - destruct (H4 H0) as (_ & _ & ?). done.
  - intros Ht. by destruct (H5 Ht) as [?|?].
Qed.

(** A scan over a closed set changes nothing. *)
Lemma closure_pass_closed fds c :
  closed_under fds c → closure_pass fds c = (c, false).
Proof.
  intros Hcl. destruct (closure_pass fds c) as [c' ch'] eqn:Hp.
  destruct (closure_pass_spec _ _ _ _ Hp) as (H1 & H2 & H3 & H4 & H5).
  destruct ch'.
  - destruct (H5 eq_refl) as (x & _ & Hx & Hx'). exfalso. apply Hx.
    by apply (H3 c).
  - by destruct (H4 eq_refl) as [-> _].
Qed.

Lemma dependents_size fds : size (dependents fds) ≤ length fds.
Proof.
  unfold dependents. induction fds as [|fd fds IH]; simpl.
  - change (size (∅ : gset string) ≤ 0). by rewrite size_empty.
  - etrans; [apply Nat.eq_le_incl, size_union_alt|]. rewrite size_singleton.
    assert (size (list_to_set (map dependent fds) ∖ {[dependent fd]} : gset string)
            ≤ size (list_to_set (map dependent fds) : gset string)).
    { apply subseteq_size. set_solver. }
    lia.
Qed.

(** The loop leaves through [changed = False] as soon as the fuel exceeds
    the number of dependents still missing. *)
Lemma closure_loop_enough fuel fds c :
  size (dependents fds ∖ c) < fuel → is_Some (closure_loop fuel fds c).
Proof.
  revert c. induction fuel as [|fuel IH]; intros c Hlt; [lia|]. simpl.
  destruct (closure_pass fds c) as [c' ch'] eqn:Hp.
  destruct (closure_pass_spec _ _ _ _ Hp) as (H1 & H2 & H3 & H4 & H5).
  destruct ch'; [|by eexists].
  destruct (H5 eq_refl) as (x & Hx & Hxc & Hxc').
  apply IH.
  assert (size (dependents fds ∖ c') < size (dependents fds ∖ c)); [|lia].
  apply subset_size. split; [set_solver|].
  intros Hsub. assert (x ∈ dependents fds ∖ c') by set_solver. set_solver.
Qed.

Lemma closure_loop_spec fuel fds c r :
  closure_loop fuel fds c = Some r →
  c ⊆ r ∧ closed_under fds r ∧ (∀ s, c ⊆ s → closed_under fds s → r ⊆ s).
Proof.
  revert c. induction fuel as [|fuel IH]; intros c Hl; [done|]. simpl in Hl.
  destruct (closure_pass fds c) as [c' ch'] eqn:Hp.
  destruct (closure_pass_spec _ _ _ _ Hp) as (H1 & H2 & H3 & H4 & H5).
  destruct ch'.
  - destruct (IH _ Hl) as (I1 & I2 & I3). repeat split; [set_solver | done |].
    intros s Hs Hcl. apply I3; [|done]. by apply H3.
  - inversion Hl; subst. destruct (H4 eq_refl) as [-> ?]. by repeat split.
Qed.

(** [compute_closure] always leaves its loop: the fuel it is run with is
    enough, and the result is the one the loop returns. *)
Lemma closure_loop_terminates attrs fds :
  closure_loop (S (length fds)) fds attrs = Some (compute_closure attrs fds).
Proof.
  unfold compute_closure.
  destruct (closure_loop_enough (S (length fds)) fds attrs) as [r ->]; [|done].
  pose proof (dependents_size fds).
  assert (size (dependents fds ∖ attrs) ≤ size (dependents fds)); [|lia].
  apply subseteq_size. set_solver.
Qed.

(** More fuel does not change the result. *)
Lemma closure_loop_fuel_irrelevant fuel attrs fds r :
  closure_loop fuel fds attrs = Some r → r = compute_closure attrs fds.
Proof.
  intros H1. pose proof (closure_loop_terminates attrs fds) as H2.
  destruct (closure_loop_spec _ _ _ _ H1) as (A1 & A2 & A3).
  destruct (closure_loop_spec _ _ _ _ H2) as (B1 & B2 & B3).
  apply (anti_symm (⊆)); [by apply A3 | by apply B3].
Qed.

Lemma closure_extensive attrs fds : attrs ⊆ compute_closure attrs fds.
Proof. by destruct (closure_loop_spec _ _ _ _ (closure_loop_terminates attrs fds)) as (? & _). Qed.

Lemma closure_closed attrs fds : closed_under fds (compute_closure attrs fds).
Proof. by destruct (closure_loop_spec _ _ _ _ (closure_loop_terminates attrs fds)) as (_ & ? & _). Qed.

Lemma closure_least attrs fds s :
  attrs ⊆ s → closed_under fds s → compute_closure attrs fds ⊆ s.
Proof.
  intros. destruct (closure_loop_spec _ _ _ _ (closure_loop_terminates attrs fds)) as (_ & _ & H').
  by apply H'.
Qed.

Lemma closure_of_closed attrs fds :
  closed_under fds attrs → compute_closure attrs fds = attrs.
Proof.
  intros Hcl. apply (anti_symm (⊆)); [by apply closure_least | apply closure_extensive].
Qed.

Lemma closure_mono attrs attrs' fds :
  attrs ⊆ attrs' → compute_closure attrs fds ⊆ compute_closure attrs' fds.
Proof.
  intros Hsub. apply closure_least; [|apply closure_closed].
  etrans; [exact Hsub | apply closure_extensive].
Qed.

(** If everything [fds] can derive in one step [fds'] can derive too, the
    closure under [fds] is inside the closure under [fds']. *)
Lemma closure_mono_fds attrs fds fds' :
  (∀ fd, fd ∈ fds → dependent fd ∈ compute_closure (list_to_set (determinant fd)) fds') →
  compute_closure attrs fds ⊆ compute_closure attrs fds'.
Proof.
  intros Hder. apply closure_least; [apply closure_extensive|].
  intros fd Hfd Hdet.
  assert (compute_closure (list_to_set (determinant fd)) fds'
          ⊆ compute_closure attrs fds') as Hin; [|by apply Hin, Hder].
  apply closure_least; [done | apply closure_closed].
Qed.

Lemma closure_sublist attrs fds fds' :
  (∀ fd, fd ∈ fds → fd ∈ fds') →
  compute_closure attrs fds ⊆ compute_closure attrs fds'.
Proof.
  intros Hsub. apply closure_mono_fds. intros fd Hfd.
  apply (closure_closed _ fds' fd); [by apply Hsub | apply closure_extensive].
Qed.

Lemma closure_within attrs fds s :
  attrs ⊆ s → (∀ fd, fd ∈ fds → dependent fd ∈ s) → compute_closure attrs fds ⊆ s.
Proof. intros Ha Hd. apply closure_least; [done|]. intros fd Hfd _. by apply Hd. Qed.

End ClosureFacts.

(** C6: closure is idempotent, and it contains the set it starts from:
    [compute_closure (compute_closure S F) F = compute_closure S F] and
    [S ⊆ compute_closure S F], for every attribute set [S] and FD list [F]. *)
Theorem closure_idempotent_extensive (X : gset string) (F : list FD) :
  compute_closure (compute_closure X F) F = compute_closure X F
  ∧ X ⊆ compute_closure X F.
Proof.
  split; [|apply closure_extensive].
  apply closure_of_closed, closure_closed.
Qed.

Example closure_chain :
  compute_closure {["a"]} [mkFD ["b"] "c"; mkFD ["a"] "b"] = {["a"; "b"; "c"]}.
Proof. vm_compute. reflexivity. Qed.

(** ** BCNF decomposition *)

Section BCNF.

Implicit Types (fds : list FD) (cs : gset string) (keys : list CandidateKey).

Lemma elem_of_relevant cs fds fd :
  fd ∈ relevant cs fds ↔
  fd ∈ fds ∧ list_to_set (determinant fd) ⊆ cs ∧ dependent fd ∈ cs.
Proof. unfold relevant. rewrite list_elem_of_filter. tauto. Qed.

(** Restricting twice is restricting to the smaller set. *)
Lemma relevant_relevant cs cs' fds :
  cs' ⊆ cs → relevant cs' (relevant cs fds) = relevant cs' fds.
Proof.
  intros Hsub. unfold relevant. rewrite list_filter_filter.
  apply list_filter_iff. intros fd. set_solver.
Qed.

Lemma find_violation_Some cs fds fd :
  find_violation cs fds = Some fd →
  fd ∈ fds ∧ ¬ cs ⊆ compute_closure (list_to_set (determinant fd)) fds.
Proof.
  unfold find_violation, is_superkey. intros [Hin Hv]%find_some. split.
  - by apply list_elem_of_In.
  - apply negb_true_iff in Hv. by apply bool_decide_eq_false in Hv.
Qed.

Lemma find_violation_None cs fds :
  find_violation cs fds = None →
  ∀ fd, fd ∈ fds → cs ⊆ compute_closure (list_to_set (determinant fd)) fds.
Proof.
  unfold find_violation, is_superkey. intros Hnone fd Hfd%list_elem_of_In.
  pose proof (find_none _ _ Hnone _ Hfd) as Hv. simpl in Hv.
  apply negb_false_iff in Hv. by apply bool_decide_eq_true in Hv.
Qed.

(** Both halves of a split lie inside the set that is split. *)
Lemma split_within cs fds fd :
  fd ∈ relevant cs fds → split_r1 fd ⊆ cs ∧ split_r2 cs fd ⊆ cs.
Proof.
  intros (_ & Hdet & Hdep)%elem_of_relevant. unfold split_r1, split_r2. set_solver.
Qed.

(** The first half is inside the closure of the determinant, which misses
    a column; the second half has lost the dependent. *)
Lemma split_smaller cs fds fd :
  find_violation cs (relevant cs fds) = Some fd →
  dependent fd ∉ determinant fd →
  size (split_r1 fd) < size cs ∧ size (split_r2 cs fd) < size cs.
Proof.
  intros [Hfd Hviol]%find_violation_Some Hne.
  pose proof Hfd as (_ & Hdet & Hdep)%elem_of_relevant.
  split; apply subset_size.
  - split; [unfold split_r1; set_solver|].
    intros Hsub. apply Hviol. etrans; [exact Hsub|].
    unfold split_r1. apply union_subseteq. split; [apply closure_extensive|].
    apply singleton_subseteq_l.
    apply (closure_closed _ _ fd); [done | apply closure_extensive].
  - split; [unfold split_r2; set_solver|].
    intros Hsub. specialize (Hsub _ Hdep). unfold split_r2 in Hsub.
    apply elem_of_union in Hsub as [Hsub|Hsub]; [set_solver|].
    apply elem_of_list_to_set in Hsub. done.
Qed.

Lemma bcnf_decompose_enough keys fuel cols fds :
  Forall (λ fd, dependent fd ∉ determinant fd) fds →
  size (list_to_set cols : gset string) < fuel →
  is_Some (bcnf_decompose keys fuel cols fds).
Proof.
  revert cols fds. induction fuel as [|fuel IH]; intros cols fds Hwf Hlt; [lia|].
  simpl. destruct (find_violation _ _) as [fd|] eqn:Hv; [|by eexists].
  assert (Forall (λ fd, dependent fd ∉ determinant fd) (relevant (list_to_set cols) fds)) as Hwf'.
  { apply Forall_forall. intros g (Hg & _)%elem_of_relevant.
    by eapply Forall_forall in Hwf. }
  assert (dependent fd ∉ determinant fd) as Hne.
  { apply find_violation_Some in Hv as [Hfd _]. by eapply Forall_forall in Hwf'. }
  destruct (split_smaller _ _ _ Hv Hne) as [H1 H2].
  destruct (IH (elements (split_r1 fd)) _ Hwf') as [t1 ->].
  { rewrite list_to_set_elements_L. lia. }
  destruct (IH (elements (split_r2 (list_to_set cols) fd)) _ Hwf') as [t2 ->].
  { rewrite list_to_set_elements_L. lia. }
  by eexists.
Qed.

Lemma size_list_to_set_le (l : list string) :
  size (list_to_set l : gset string) ≤ length l.
Proof.
  induction l as [|x l IH]; simpl.
  - change (size (∅ : gset string) ≤ 0). by rewrite size_empty.
  - etrans; [apply Nat.eq_le_incl, size_union_alt|]. rewrite size_singleton.
    assert (size (list_to_set l ∖ {[x]} : gset string) ≤ size (list_to_set l : gset string)).
    { apply subseteq_size. set_solver. }
    lia.
Qed.

(** What holds of every table a finished decomposition returns: its
    columns come from the decomposed set, no FD relevant to it violates
    BCNF, and its key is the one [find_key] gives for its columns. *)
Lemma bcnf_decompose_tables keys fuel cols fds tables t :
  bcnf_decompose keys fuel cols fds = Some tables → t ∈ tables →
  (list_to_set (columns t) : gset string) ⊆ list_to_set cols
  ∧ (∀ fd, fd ∈ relevant (list_to_set (columns t)) fds →
       list_to_set (columns t) ⊆
         compute_closure (list_to_set (determinant fd)) (relevant (list_to_set (columns t)) fds))
  ∧ ∃ fds', primary_key t = find_key (columns t) fds' keys.
Proof.
  revert cols fds tables. induction fuel as [|fuel IH]; intros cols fds tables Hd Ht; [done|].
  simpl in Hd. destruct (find_violation _ _) as [fd|] eqn:Hv.
  - destruct (bcnf_decompose keys fuel (elements (split_r1 fd)) _) as [t1|] eqn:E1; [|done].
    destruct (bcnf_decompose keys fuel (elements (split_r2 _ fd)) _) as [t2|] eqn:E2; [|done].
    simpl in Hd. inversion Hd; subst tables.
    apply find_violation_Some in Hv as [Hfd _].
    destruct (split_within _ _ _ Hfd) as [S1 S2].
    apply elem_of_app in Ht as [Ht|Ht].
    + destruct (IH _ _ _ E1 Ht) as (A1 & A2 & A3).
      rewrite list_to_set_elements_L in A1.
      assert ((list_to_set (columns t) : gset string) ⊆ list_to_set cols) as Hsub by set_solver.
      rewrite (relevant_relevant _ _ _ Hsub) in A2. done.
    + destruct (IH _ _ _ E2 Ht) as (A1 & A2 & A3).
      rewrite list_to_set_elements_L in A1.
      assert ((list_to_set (columns t) : gset string) ⊆ list_to_set cols) as Hsub by set_solver.
      rewrite (relevant_relevant _ _ _ Hsub) in A2. done.
  - inversion Hd; subst tables. apply list_elem_of_singleton in Ht as ->. simpl.
    split; [done|]. split; [|by eexists].
    intros fd Hfd. by apply (find_violation_None _ _ Hv).
Qed.

Lemma elem_of_name_tables tables t :
  t ∈ name_tables tables →
  ∃ t', t' ∈ tables ∧ columns t = columns t' ∧ primary_key t = primary_key t'.
Proof.
  unfold name_tables. intros (t' & -> & Ht')%list_elem_of_fmap. by exists t'.
Qed.

(** [find_key] never leaves the columns it is given. *)
Lemma find_key_within cols fds keys : find_key cols fds keys ⊆ cols.
Proof.
  unfold find_key. destruct (find _ keys) as [ck|] eqn:Hck.
  - apply find_some in Hck as [_ Hsub]. apply bool_decide_eq_true in Hsub.
    intros x Hx. set_solver.
  - destruct (find _ (relevant _ fds)) as [fd|] eqn:Hfd; [|done].
    apply find_some in Hfd as [Hin _]. apply list_elem_of_In, elem_of_relevant in Hin.
    destruct Hin as (_ & Hdet & _). intros x Hx%elem_of_elements. set_solver.
Qed.

End BCNF.

(** C7: when no FD has its dependent inside its own determinant, the BCNF
    recursion comes back for every column list and FD list: a depth above
    the number of columns is always enough, so [decompose_bcnf] returns;
    and the reason is that both halves of every split are strictly smaller
    than the set that is split. *)
Theorem bcnf_decompose_terminates (cols : list string) (fds : list FD)
    (keys : list CandidateKey) :
  Forall (λ fd, dependent fd ∉ determinant fd) fds →
  (∀ fuel, size (list_to_set cols : gset string) < fuel →
     is_Some (bcnf_decompose keys fuel cols fds))
  ∧ is_Some (decompose_bcnf cols fds keys)
  ∧ (∀ fd, find_violation (list_to_set cols) (relevant (list_to_set cols) fds) = Some fd →
       size (split_r1 fd) < size (list_to_set cols : gset string)
       ∧ size (split_r2 (list_to_set cols) fd) < size (list_to_set cols : gset string)).
Proof.
  intros Hwf. split; [|split].
  - intros fuel Hlt. by apply bcnf_decompose_enough.
  - unfold decompose_bcnf.
    destruct (bcnf_decompose_enough keys (S (length cols)) cols fds Hwf) as [ts ->]; [|by eexists].
    pose proof (size_list_to_set_le cols). lia.
  - intros fd Hv. apply (split_smaller _ _ _ Hv).
    apply find_violation_Some in Hv as [(Hfd & _)%elem_of_relevant _].
    by eapply Forall_forall in Hwf.
Qed.

Lemma bcnf_decompose_terminates_witness :
  Forall (λ fd, dependent fd ∉ determinant fd)
    [mkFD ["emp_id"] "emp_name"; mkFD ["emp_id"] "dept_id"; mkFD ["dept_id"] "dept_name"]
  ∧ is_Some (decompose_bcnf ["emp_id"; "emp_name"; "dept_id"; "dept_name"]
       [mkFD ["emp_id"] "emp_name"; mkFD ["emp_id"] "dept_id"; mkFD ["dept_id"] "dept_name"]
       [mkCK ["emp_id"] true]).
Proof.
  assert (Forall (λ fd, dependent fd ∉ determinant fd)
    [mkFD ["emp_id"] "emp_name"; mkFD ["emp_id"] "dept_id"; mkFD ["dept_id"] "dept_name"]) as H.
  { apply (bool_decide_unpack _). vm_compute. exact I. }
  split; [exact H|].
  exact (proj1 (proj2 (bcnf_decompose_terminates _ _ [mkCK ["emp_id"] true] H))).
Defined.

(** C5: in every table the BCNF decomposition returns, every FD relevant
    to the table (determinant and dependent among the table's columns) has
    a determinant whose closure under the relevant FDs contains all the
    table's columns. *)
Theorem bcnf_tables_have_no_violation (cols : list string) (fds : list FD)
    (keys : list CandidateKey) (tables : list Table) (t : Table) (fd : FD) :
  decompose_bcnf cols fds keys = Some tables →
  t ∈ tables → fd ∈ fds →
  list_to_set (determinant fd) ⊆ (list_to_set (columns t) : gset string) →
  dependent fd ∈ (list_to_set (columns t) : gset string) →
  list_to_set (columns t) ⊆
    compute_closure (list_to_set (determinant fd)) (relevant (list_to_set (columns t)) fds).
Proof.
  unfold decompose_bcnf. intros Hd Ht Hfd Hdet Hdep.
  destruct (bcnf_decompose keys _ cols fds) as [ts|] eqn:E; [|done].
  simpl in Hd. inversion Hd; subst tables.
  apply elem_of_name_tables in Ht as (t' & Ht' & Hcols & _).
  rewrite Hcols in *.
  destruct (bcnf_decompose_tables _ _ _ _ _ _ E Ht') as (_ & Hall & _).
  apply Hall. by apply elem_of_relevant.
Qed.

Lemma bcnf_tables_have_no_violation_witness :
  (list_to_set ["dept_id"; "dept_name"] : gset string) ⊆
    compute_closure (list_to_set ["dept_id"])
      (relevant (list_to_set ["dept_id"; "dept_name"])
         [mkFD ["emp_id"] "emp_name"; mkFD ["emp_id"] "dept_id"; mkFD ["dept_id"] "dept_name"]).
Proof.
  apply (bcnf_tables_have_no_violation
           ["emp_id"; "emp_name"; "dept_id"; "dept_name"]
           [mkFD ["emp_id"] "emp_name"; mkFD ["emp_id"] "dept_id"; mkFD ["dept_id"] "dept_name"]
           [mkCK ["emp_id"] true]
           [mkTable "dept_names" ["dept_id"; "dept_name"] ["dept_id"] None;
            mkTable "emps" ["emp_id"; "emp_name"; "dept_id"] ["emp_id"] None]
           (mkTable "dept_names" ["dept_id"; "dept_name"] ["dept_id"] None)
           (mkFD ["dept_id"] "dept_name")).
  - vm_compute. reflexivity.
  - apply (bool_decide_unpack _). vm_compute. exact I.
  - apply (bool_decide_unpack _). vm_compute. exact I.
  - apply (bool_decide_unpack _). vm_compute. exact I.
  - apply (bool_decide_unpack _). vm_compute. exact I.
Defined.

(** ** 3NF synthesis *)

Section Synthesis3NF.

Implicit Types (fds : list FD) (keys : list CandidateKey) (ts : list Table).

Lemma elem_of_fd_attrs fds x :
  x ∈ fd_attrs fds ↔ ∃ fd, fd ∈ fds ∧ (x ∈ determinant fd ∨ x = dependent fd).
Proof.
  unfold fd_attrs. rewrite elem_of_union_list. split.
  - intros (X & (fd & -> & Hfd)%list_elem_of_fmap & Hx). exists fd. set_solver.
  - intros (fd & Hfd & Hx). eexists. split.
    + apply list_elem_of_fmap. by exists fd.
    + set_solver.
Qed.

Lemma elem_of_covered_by ts x :
  x ∈ covered_by ts ↔ ∃ t, t ∈ ts ∧ x ∈ columns t.
Proof.
  unfold covered_by. rewrite elem_of_union_list. split.
  - intros (X & (t & -> & Ht)%list_elem_of_fmap & Hx). exists t. set_solver.
  - intros (t & Ht & Hx). eexists. split.
    + apply list_elem_of_fmap. by exists t.
    + set_solver.
Qed.

Lemma covered_by_app ts ts' : covered_by (ts ++ ts') = covered_by ts ∪ covered_by ts'.
Proof. unfold covered_by. by rewrite map_app, union_list_app_L. Qed.

Lemma covered_by_cons t ts : covered_by (t :: ts) = list_to_set (columns t) ∪ covered_by ts.
Proof. done. Qed.

Lemma covered_by_singleton t : covered_by [t] = list_to_set (columns t).
Proof. rewrite covered_by_cons. unfold covered_by. simpl. set_solver. Qed.

Lemma sorted_set (l : list string) : (list_to_set (sorted l) : gset string) = list_to_set l.
Proof. unfold sorted. apply list_to_set_perm_L, merge_sort_Permutation. Qed.

Lemma elem_of_sorted (l : list string) x : x ∈ sorted l ↔ x ∈ l.
Proof. unfold sorted. by rewrite merge_sort_Permutation. Qed.

(** Appending to the groups adds the determinant and the dependent to the
    columns of the tables built from them, and nothing else. *)
Lemma covered_by_group_append det dep groups :
  covered_by (map fd_table (group_append det dep groups))
  = covered_by (map fd_table groups) ∪ list_to_set det ∪ {[dep]}.
Proof.
  induction groups as [|[k deps] groups IH]; simpl.
  - rewrite covered_by_singleton. simpl. rewrite list_to_set_app_L.
    unfold covered_by. simpl. set_solver.
  - destruct (decide (k = det)) as [->|Hne]; simpl.
    + rewrite !covered_by_cons. simpl. rewrite !list_to_set_app_L. set_solver.
    + rewrite !covered_by_cons, IH. set_solver.
Qed.

Lemma covered_by_groups_from groups fds :
  covered_by (map fd_table
    (foldl (λ groups fd, group_append (sorted (determinant fd)) (dependent fd) groups)
           groups fds))
  = covered_by (map fd_table groups) ∪ fd_attrs fds.
Proof.
  revert groups. induction fds as [|fd fds IH]; intros groups; simpl.
  - unfold fd_attrs. simpl. set_solver.
  - rewrite IH, covered_by_group_append, sorted_set. unfold fd_attrs. simpl. set_solver.
Qed.

(** The FD tables cover exactly the attributes of the minimal cover. *)
Lemma covered_by_fd_tables fds :
  covered_by (map fd_table (group_by_determinant fds)) = fd_attrs fds.
Proof.
  unfold group_by_determinant. rewrite covered_by_groups_from.
  unfold covered_by. simpl. set_solver.
Qed.

Lemma elem_of_remove_redundant_fds minimal fd :
  fd ∈ remove_redundant_fds minimal → fd ∈ minimal.
Proof.
  unfold remove_redundant_fds. intros (l & Hfd & Hl)%list_elem_of_join.
  apply elem_of_lookup_imap in Hl as (i & g & -> & Hi).
  destruct (is_derivable _ _); [by apply elem_of_nil in Hfd|].
  apply list_elem_of_singleton in Hfd as ->. by eapply list_elem_of_lookup_2.
Qed.

Lemma reduce_determinant_spec result fd :
  dependent (reduce_determinant result fd) = dependent fd
  ∧ (determinant (reduce_determinant result fd) = determinant fd
     ∨ ∃ attr, determinant (reduce_determinant result fd) = remove_attr attr (determinant fd)
        ∧ is_derivable (reduce_determinant result fd) result = true).
Proof.
  unfold reduce_determinant. destruct (1 <? length (determinant fd)); [|by auto].
  destruct (find _ _) as [attr|] eqn:Hf; [|by auto].
  apply find_some in Hf as [_ Hd]. simpl. split; [done|]. right. by exists attr.
Qed.

Lemma remove_attr_subseteq attr (det : list string) : remove_attr attr det ⊆ det.
Proof. unfold remove_attr. intros x Hx%list_elem_of_filter. tauto. Qed.

(** Every FD of the cover comes from an FD of the input with the same
    dependent and a determinant that lost at most some attributes. *)
Lemma minimal_cover_origin fds fd' :
  fd' ∈ compute_minimal_cover fds →
  ∃ fd, fd ∈ fds ∧ dependent fd' = dependent fd ∧ determinant fd' ⊆ determinant fd.
Proof.
  unfold compute_minimal_cover. intros (g & -> & Hg)%list_elem_of_fmap.
  apply elem_of_remove_redundant_fds in Hg.
  apply list_elem_of_fmap in Hg as (fd & -> & Hfd). exists fd. split; [done|].
  destruct (reduce_determinant_spec
              (remove_redundant_fds (map sort_determinant fds)) (sort_determinant fd))
    as [Hdep [Hdet|(attr & Hdet & _)]]; rewrite Hdep, Hdet; simpl; split; try done.
  - intros x. by rewrite elem_of_sorted.
  - etrans; [apply remove_attr_subseteq|]. intros x. by rewrite elem_of_sorted.
Qed.

Lemma minimal_cover_attrs fds : fd_attrs (compute_minimal_cover fds) ⊆ fd_attrs fds.
Proof.
  intros x (fd' & Hfd' & Hx)%elem_of_fd_attrs.
  destruct (minimal_cover_origin _ _ Hfd') as (fd & Hfd & Hdep & Hdet).
  apply elem_of_fd_attrs. exists fd. split; [done|].
  destruct Hx as [Hx| ->]; [left; by apply Hdet | right; done].
Qed.

(** Extending the first key-only table adds the extra columns and touches
    no primary key. *)
Lemma extend_main_spec extra ts ts' :
  extend_main extra ts = Some ts' →
  covered_by ts' = covered_by ts ∪ list_to_set extra
  ∧ ∀ t', t' ∈ ts' → ∃ t, t ∈ ts ∧ primary_key t' = primary_key t ∧ columns t ⊆ columns t'.
Proof.
  revert ts'. induction ts as [|t ts IH]; intros ts' He; simpl in He; [done|].
  destruct (source_fd t) eqn:Hs.
  - destruct (extend_main extra ts) as [r|] eqn:Hr; [|done]. simpl in He.
    inversion He; subst ts'. destruct (IH _ eq_refl) as [I1 I2].
    split; [rewrite !covered_by_cons, I1; set_solver|].
    intros t' [->|Ht']%elem_of_cons.
    + exists t. split; [by left | done].
    + destruct (I2 _ Ht') as (t0 & ? & ? & ?). exists t0. split; [by right | done].
  - inversion He; subst ts'. split.
    + rewrite !covered_by_cons. simpl. rewrite list_to_set_app_L. set_solver.
    + intros t' [->|Ht']%elem_of_cons.
      * exists t. simpl. split; [by left|]. split; [done|]. set_solver.
      * exists t'. split; [by right | done].
Qed.

End Synthesis3NF.

(** The tables built from the FD groups, before any key-only or catch-all
    table is added. *)
Lemma fd_table_key_within g : primary_key (fd_table g) ⊆ columns (fd_table g).
Proof. destruct g as [det deps]. simpl. set_solver. Qed.

(** Counterexample to C3 as stated: with no candidate key the attribute
    [note], which no FD mentions, is in no table. *)
Lemma decompose_3nf_drops_uncovered :
  covered_by (decompose_3nf ["id"; "name"; "note"] [mkFD ["id"] "name"] [])
  ≠ list_to_set ["id"; "name"; "note"].
Proof.
  intros H. assert ("note" ∈ covered_by (decompose_3nf ["id"; "name"; "note"] [mkFD ["id"] "name"] []))
    as Hin by (rewrite H; set_solver).
  revert Hin. apply (bool_decide_unpack _). vm_compute. exact I.
Qed.

(** C3 (amended): when at least one candidate key is given, and the FDs
    and the first candidate key mention only columns of the input, the
    union of the column sets of the tables [decompose_3nf] returns is the
    set of input columns. *)
Theorem decompose_3nf_covers (cols : list string) (fds : list FD)
    (ck : CandidateKey) (keys : list CandidateKey) :
  fd_attrs fds ⊆ list_to_set cols →
  list_to_set (ck_columns ck) ⊆ (list_to_set cols : gset string) →
  covered_by (decompose_3nf cols fds (ck :: keys)) = list_to_set cols.
Proof.
  intros Hfds Hkey. unfold decompose_3nf.
  pose proof (covered_by_fd_tables (compute_minimal_cover fds)) as Hcov.
  pose proof (minimal_cover_attrs fds) as Hattrs.
  set (T0 := map fd_table (group_by_determinant (compute_minimal_cover fds))) in *.
  assert (covered_by T0 ⊆ list_to_set cols) as HC by set_solver.
  clear Hcov Hattrs Hfds.
  destruct (bool_decide (list_to_set (ck_columns ck) ⊆ covered_by T0)) eqn:HK.
  - apply bool_decide_eq_true in HK.
    destruct (bool_decide (list_to_set cols ∖ covered_by T0 ≠ ∅)) eqn:HU.
    + destruct (extend_main _ T0) as [ts'|] eqn:He.
      * apply extend_main_spec in He as [-> _]. rewrite list_to_set_elements_L.
        apply set_eq. intros x. destruct (decide (x ∈ covered_by T0)); set_solver.
      * rewrite covered_by_app, covered_by_singleton. simpl.
        rewrite list_to_set_app_L, list_to_set_elements_L.
        apply set_eq. intros x. destruct (decide (x ∈ covered_by T0)); set_solver.
    + apply bool_decide_eq_false in HU.
      destruct (decide (list_to_set cols ∖ covered_by T0 = (∅ : gset string))) as [Hem|]; [|done].
      apply set_eq. intros x. destruct (decide (x ∈ covered_by T0)); set_solver.
  - destruct (bool_decide (list_to_set cols ∖ covered_by T0 ≠ ∅)) eqn:HU.
    + destruct (extend_main _ _) as [ts'|] eqn:He.
      * apply extend_main_spec in He as [-> _].
        rewrite covered_by_app, covered_by_singleton. simpl.
        rewrite !list_to_set_elements_L.
        apply set_eq. intros x. destruct (decide (x ∈ covered_by T0)); set_solver.
      * rewrite !covered_by_app, !covered_by_singleton. simpl.
        rewrite list_to_set_app_L, !list_to_set_elements_L.
        apply set_eq. intros x. destruct (decide (x ∈ covered_by T0)); set_solver.
    + apply bool_decide_eq_false in HU.
      destruct (decide (list_to_set cols ∖ covered_by T0 = (∅ : gset string))) as [Hem|]; [|done].
      rewrite covered_by_app, covered_by_singleton. simpl. rewrite list_to_set_elements_L.
      apply set_eq. intros x. destruct (decide (x ∈ covered_by T0)); set_solver.
Qed.

Lemma decompose_3nf_covers_witness :
  covered_by (decompose_3nf ["order_id"; "product_id"; "product_name"; "note"]
                [mkFD ["product_id"] "product_name"]
                [mkCK ["order_id"; "product_id"] true])
  = list_to_set ["order_id"; "product_id"; "product_name"; "note"].
Proof.
  apply (decompose_3nf_covers ["order_id"; "product_id"; "product_name"; "note"]
           [mkFD ["product_id"] "product_name"] (mkCK ["order_id"; "product_id"] true) []).
  - apply (bool_decide_unpack _). vm_compute. exact I.
  - apply (bool_decide_unpack _). vm_compute. exact I.
Defined.

(** Every table of the 3NF synthesis keeps its key among its columns. *)
Lemma decompose_3nf_key_within cols fds keys t :
  t ∈ decompose_3nf cols fds keys → primary_key t ⊆ columns t.
Proof.
  unfold decompose_3nf.
  set (T0 := map fd_table (group_by_determinant (compute_minimal_cover fds))).
  assert (∀ t, t ∈ T0 → primary_key t ⊆ columns t) as H0.
  { intros t0 (g & -> & _)%list_elem_of_fmap. apply fd_table_key_within. }
  destruct keys as [|ck keys]; [by apply H0|].
  set (T1 := if bool_decide _ then T0 else T0 ++ _).
  assert (∀ t, t ∈ T1 → primary_key t ⊆ columns t) as H1.
  { subst T1. destruct (bool_decide _); [done|].
    intros t1 [Ht1|Ht1]%elem_of_app; [by apply H0|].
    apply list_elem_of_singleton in Ht1 as ->. done. }
  destruct (bool_decide (_ ≠ ∅)); [|by apply H1].
  destruct (extend_main _ T1) as [ts'|] eqn:He.
  - intros Ht. destruct (extend_main_spec _ _ _ He) as [_ Hk].
    destruct (Hk _ Ht) as (t1 & Ht1 & -> & Hc). etrans; [by apply H1 | done].
  - intros [Ht|Ht]%elem_of_app; [by apply H1|].
    apply list_elem_of_singleton in Ht as ->. simpl. set_solver.
Qed.

(** C10: the primary key of every table of the 3NF synthesis and of every
    table of the BCNF decomposition is a subset of the table's own column
    list, and [find_key] returns a subset of the column list it is given. *)
Theorem primary_key_within_columns (cols : list string) (fds : list FD)
    (keys : list CandidateKey) :
  (∀ t, t ∈ decompose_3nf cols fds keys → primary_key t ⊆ columns t)
  ∧ (∀ tables t, decompose_bcnf cols fds keys = Some tables → t ∈ tables →
       primary_key t ⊆ columns t)
  ∧ find_key cols fds keys ⊆ cols.
Proof.
  split; [|split].
  - intros t. apply decompose_3nf_key_within.
  - unfold decompose_bcnf. intros tables t Hd Ht.
    destruct (bcnf_decompose keys _ cols fds) as [ts|] eqn:E; [|done].
    simpl in Hd. inversion Hd; subst tables.
    apply elem_of_name_tables in Ht as (t' & Ht' & -> & ->).
    destruct (bcnf_decompose_tables _ _ _ _ _ _ E Ht') as (_ & _ & fds' & ->).
    apply find_key_within.
  - apply find_key_within.
Qed.

(** ** Minimal cover *)

Section CoverFacts.

Implicit Types (fds : list FD) (X : gset string).

Lemma sorted_fd_derivable fds g :
  g ∈ map sort_determinant fds →
  dependent g ∈ compute_closure (list_to_set (determinant g)) fds.
Proof.
  intros (fd & -> & Hfd)%list_elem_of_fmap. simpl. rewrite sorted_set.
  apply (closure_closed _ fds fd); [done | apply closure_extensive].
Qed.

Lemma closure_remove_redundant X fds :
  compute_closure X (remove_redundant_fds (map sort_determinant fds))
  ⊆ compute_closure X fds.
Proof.
  apply closure_mono_fds. intros g Hg%elem_of_remove_redundant_fds.
  by apply sorted_fd_derivable.
Qed.

(** Nothing follows from the cover that did not follow from the input:
    the reduction never adds to a closure. *)
Lemma minimal_cover_sound X fds :
  compute_closure X (compute_minimal_cover fds) ⊆ compute_closure X fds.
Proof.
  apply closure_mono_fds. unfold compute_minimal_cover.
  intros fd' (g & -> & Hg)%list_elem_of_fmap.
  destruct (reduce_determinant_spec
              (remove_redundant_fds (map sort_determinant fds)) g)
    as [Hdep [Hdet|(attr & Hdet & Hder)]].
  - rewrite Hdep, Hdet. by apply sorted_fd_derivable, elem_of_remove_redundant_fds.
  - unfold is_derivable in Hder. apply bool_decide_eq_true in Hder.
    by apply closure_remove_redundant.
Qed.

End CoverFacts.

(** C1 fails on the code.  Two identifying columns determine each other
    and both determine the name; each of the two FDs onto the name is
    derivable from the three other FDs, so step 2 drops both, and the name
    is no longer in the closure of either identifier. *)
Theorem minimal_cover_loses_dependency :
  let fds := [mkFD ["emp_id"] "badge_no"; mkFD ["emp_id"] "emp_name";
              mkFD ["badge_no"] "emp_id"; mkFD ["badge_no"] "emp_name"] in
  compute_minimal_cover fds = [mkFD ["emp_id"] "badge_no"; mkFD ["badge_no"] "emp_id"]
  ∧ compute_closure {["emp_id"]} (compute_minimal_cover fds) = {["emp_id"; "badge_no"]}
  ∧ compute_closure {["emp_id"]} fds = {["emp_id"; "badge_no"; "emp_name"]}
  ∧ compute_closure {["emp_id"]} (compute_minimal_cover fds) ≠ compute_closure {["emp_id"]} fds.
Proof.
  assert (compute_closure {["emp_id"]}
            [mkFD ["emp_id"] "badge_no"; mkFD ["badge_no"] "emp_id"]
          = {["emp_id"; "badge_no"]}) as H1 by (vm_compute; reflexivity).
  assert (compute_closure {["emp_id"]}
            [mkFD ["emp_id"] "badge_no"; mkFD ["emp_id"] "emp_name";
             mkFD ["badge_no"] "emp_id"; mkFD ["badge_no"] "emp_name"]
          = {["emp_id"; "badge_no"; "emp_name"]}) as H2 by (vm_compute; reflexivity).
  assert (compute_minimal_cover
            [mkFD ["emp_id"] "badge_no"; mkFD ["emp_id"] "emp_name";
             mkFD ["badge_no"] "emp_id"; mkFD ["badge_no"] "emp_name"]
          = [mkFD ["emp_id"] "badge_no"; mkFD ["badge_no"] "emp_id"]) as H3
    by (vm_compute; reflexivity).
  cbv zeta. rewrite H3, H1, H2. repeat split.
  intros Heq. assert ("emp_name" ∈ ({["emp_id"; "badge_no"]} : gset string)) as Hin
    by (rewrite Heq; set_solver).
  revert Hin. apply (bool_decide_unpack _). vm_compute. exact I.
Qed.

(** The FD list above is what discovery reports for a table with two
    unique identifiers. *)
Example badge_fds_discovered :
  let df := mkFrame ["emp_id"; "badge_no"; "emp_name"]
    [ [Some (VInt 1); Some (VInt 100); Some (VStr "ann")];
      [Some (VInt 2); Some (VInt 200); Some (VStr "bob")];
      [Some (VInt 3); Some (VInt 300); Some (VStr "ann")] ] in
  (λ r, match r with Ok fds => Some (confirmed_fds fds) | Raise _ => None end)
    (detect_fds df (8 # 10)%Q)
  = Some [mkFD ["emp_id"] "badge_no"; mkFD ["emp_id"] "emp_name";
          mkFD ["badge_no"] "emp_id"; mkFD ["badge_no"] "emp_name"].
Proof. vm_compute. reflexivity. Qed.

(** ** Candidate keys *)

(** C2 fails on the code.  In the frame below [b] is missing where [a]
    repeats, so discovery confirms [a → b], [b → c] and [c → b] but not
    [a → c].  Then [must_be_in_key] is [{a}], whose closure is every
    column, yet the one-step test of [find_candidate_keys] sees only [b]
    determined, and no key is recorded. *)
Theorem candidate_key_missed :
  let df := mkFrame ["a"; "b"; "c"]
    [ [Some (VInt 1); None; Some (VStr "x")];
      [Some (VInt 1); None; Some (VStr "y")];
      [Some (VInt 2); Some (VInt 5); Some (VStr "z")];
      [Some (VInt 3); Some (VInt 5); Some (VStr "z")] ] in
  ∃ fds, detect_fds df (8 # 10)%Q = Ok fds
    ∧ confirmed_fds fds = [mkFD ["a"] "b"; mkFD ["b"] "c"; mkFD ["c"] "b"]
    ∧ must_be_in_key df fds = {["a"]}
    ∧ compute_closure (must_be_in_key df fds) (confirmed_fds fds) = list_to_set (df_columns df)
    ∧ find_candidate_keys df fds = [].
Proof.
  cbv zeta. eexists. split; [vm_compute; reflexivity|].
  repeat split; vm_compute; reflexivity.
Qed.

(** ** FD discovery *)

Section DiscoveryFacts.

Local Open Scope Q_scope.

(** Rounding to the nearest integer moves a number by at most a half. *)
Lemma round_half_even_bounds (q : Q) :
  q - (1 # 2) <= inject_Z (round_half_even q) ∧ inject_Z (round_half_even q) <= q + (1 # 2).
Proof.
  unfold round_half_even.
  pose proof (Qfloor_le q) as Hlo. pose proof (Qlt_floor q) as Hhi.
  rewrite inject_Z_plus in Hhi. change (inject_Z 1) with 1 in Hhi.
  destruct (Qcompare (q - inject_Z (Qfloor q)) (1 # 2)) eqn:Hc.
  - apply Qeq_alt in Hc. destruct (Z.even (Qfloor q)).
    + split; lra.
    + rewrite inject_Z_plus. change (inject_Z 1) with 1. split; lra.
  - apply Qlt_alt in Hc. split; lra.
  - apply Qgt_alt in Hc. rewrite inject_Z_plus. change (inject_Z 1) with 1. split; lra.
Qed.

Lemma round_half_even_comp (q q' : Q) : q == q' → round_half_even q = round_half_even q'.
Proof.
  intros H. unfold round_half_even. rewrite (Qfloor_comp _ _ H).
  assert (q - inject_Z (Qfloor q') == q' - inject_Z (Qfloor q')) as H1 by (rewrite H; reflexivity).
  by rewrite (Qcompare_comp _ _ H1 _ _ (Qeq_refl _)).
Qed.


(** With no violating partition the confidence is exactly 1. *)
Lemma round4_no_violation (t : nat) : round4 (1 - ratio 0 t) == 1.
Proof.
  unfold round4.
  rewrite (round_half_even_comp _ (inject_Z 10000)).
  - reflexivity.
  - unfold ratio. simpl Z.of_nat. change (inject_Z 10000) with (10000 # 1).
    assert (0 # Pos.of_nat t == 0) as -> by reflexivity. lra.
Qed.

Lemma status_confirmed_iff (r : FDCheck) :
  status_of r = "confirmed"%string ↔ confidence r == 1.
Proof.
  unfold status_of. destruct (Qeq_bool (confidence r) 1) eqn:H.
  - apply Qeq_bool_iff in H. done.
  - split; [done|]. intros H'%Qeq_bool_iff. congruence.
Qed.

End DiscoveryFacts.

Section DetectFacts.

Implicit Types (df : Frame) (fds : list DetectedFD).








End DetectFacts.




(** ** Replay *)

Section ReplayFacts.

Implicit Types (df : Frame) (config : TransformConfig) (t : Table) (w : World).

Lemma find_none_intro {A} (f : A → bool) (l : list A) :
  (∀ x, x ∈ l → f x = false) → find f l = None.
Proof.
  induction l as [|x l IH]; intros H; simpl; [done|].
  rewrite (H x) by (by left). apply IH. intros y Hy. apply H. by right.
Qed.

Lemma filter_all {A} (P : A → Prop) `{∀ x, Decision (P x)} (l : list A) :
  length (filter P l) = length l ↔ Forall P l.
Proof.
  induction l as [|x l IH]; simpl; [by split; [constructor|]|].
  rewrite filter_cons. pose proof (length_filter P l) as Hle.
  destruct (decide (P x)) as [HP|HP]; simpl.
  - split.
    + intros [= Hl]. constructor; [done | by apply IH].
    + intros Hall. apply Forall_cons in Hall as [_ Hall]. f_equal. by apply IH.
  - split; [lia|]. intros Hall. by apply Forall_cons in Hall as [? _].
Qed.

Lemma available_all df cols :
  length (available_cols df cols) = length cols ↔ cols ⊆ df_columns df.
Proof.
  unfold available_cols. rewrite filter_all, Forall_forall. done.
Qed.

Lemma select_present df cols :
  cols ⊆ df_columns df →
  select df cols = Ok (mkFrame cols (map (project df cols) (df_rows df))).
Proof.
  intros Hsub. unfold select. rewrite find_none_intro; [done|].
  intros c Hc. apply bool_decide_eq_false. intros Hn. by apply Hn, Hsub.
Qed.

Lemma filter_eq_absent (c : string) (l : list string) :
  c ∉ l → filter (λ x, x = c) l = [].
Proof.
  induction l as [|x l IH]; intros Hc; [done|].
  rewrite filter_cons. destruct (decide (x = c)) as [->|Hne].
  - exfalso. apply Hc. by left.
  - apply IH. intros Hin. apply Hc. by right.
Qed.

Lemma label_count_NoDup cols rows c :
  NoDup cols → c ∈ cols → label_count (mkFrame cols rows) c = 1.
Proof.
  unfold label_count. simpl. induction 1 as [|x l Hx Hnd IH]; intros Hc.
  - by apply elem_of_nil in Hc.
  - rewrite filter_cons. destruct (decide (x = c)) as [->|Hne]; simpl.
    + by rewrite filter_eq_absent.
    + apply elem_of_cons in Hc as [->|Hc]; [done | by apply IH].
Qed.

Lemma check_labels_wf cols rows pk :
  NoDup cols → pk ⊆ cols → check_labels (mkFrame cols rows) pk = None.
Proof.
  intros Hnd. induction pk as [|c pk IH]; intros Hsub; simpl; [done|].
  rewrite label_count_NoDup; [|done|apply Hsub; by left].
  apply IH. intros x Hx. apply Hsub. by right.
Qed.

(** A table whose columns are all present is written: distinct rows,
    sorted on the key. *)
Lemma transform_table_present df results t w :
  table_wf t → all_present df t →
  transform_table df results t w
  = (Returned (results ++ [replay_result df t]),
     mkWorld (<[table_path (name t) := replayed df t]> (files w))
             (printed w ++ [replay_event df t])).
Proof.
  intros [Hnd Hpk] Hall. unfold transform_table, replay_event.
  destruct (decide (all_present df t)); [|done].
  rewrite bool_decide_eq_false_2 by (intros Hn; by apply Hn, available_all).
  unfold mbind, M_bind, bind, lift. rewrite select_present by done.
  unfold sort_values, drop_duplicates. simpl df_columns.
  rewrite check_labels_wf by done. reflexivity.
Qed.



Lemma print_warnings errors w :
  for_each errors (λ _ err, print (Warning err)) () w
  = (Returned (), mkWorld (files w) (printed w ++ map Warning errors)).
Proof.
  revert w. induction errors as [|e errors IH]; intros w; simpl.
  - rewrite app_nil_r. by destruct w.
  - unfold mbind, M_bind, bind, print. rewrite IH. simpl. by rewrite <- app_assoc.
Qed.








End ReplayFacts.



(** C9 fails on the code.  For an order table keyed by (order_id,
    product_id) with the FD product_id → product_name, the 3NF synthesis
    adds the key-only table [main_keys] and then appends the uncovered
    column [order_id] to it a second time.  The synthesis writes that
    table; the replay of the configuration on the same data raises when it
    sorts the table on its key, because the label [order_id] is carried by
    two columns, and [main_keys.csv] is never written. *)
Theorem replay_fails_on_key_table :
  let df := mkFrame ["order_id"; "product_id"; "product_name"]
    [ [Some (VInt 1); Some (VInt 7); Some (VStr "nut")];
      [Some (VInt 1); Some (VInt 8); Some (VStr "bolt")];
      [Some (VInt 2); Some (VInt 7); Some (VStr "nut")] ] in
  let config := mkNormalizeConfig
    [mkConfigFD (mkFD ["product_id"] "product_name") (Some "confirmed") None]
    [mkCK ["order_id"; "product_id"] true] in
  ∃ tc w w',
    normalize df config "3NF" (mkWorld ∅ []) = (Returned tc, w)
    ∧ tables tc = [mkTable "product_names" ["product_id"; "product_name"] ["product_id"] None;
                   mkTable "main_keys" ["order_id"; "product_id"; "order_id"]
                     ["order_id"; "product_id"] None]
    ∧ is_Some (files w !! "main_keys.csv")
    ∧ transform df tc false (mkWorld ∅ [])
      = (Raised (ValueError "The column label 'order_id' is not unique."), w')
    ∧ files w' !! "main_keys.csv" = None.
Proof.
  cbv zeta. eexists _, _, _. split; [vm_compute; reflexivity|].
  split; [vm_compute; reflexivity|]. split; [vm_compute; by eexists|].
  split; [vm_compute; reflexivity|]. vm_compute. reflexivity.
Qed.

(** * Further properties of the code *)

(** ** Closure and derivability *)

(** [compute_closure X F] is closed under [F], lies inside every closed
    set that contains [X], and grows with [X] and with the FD list. *)
Theorem closure_least_closed (X : gset string) (F : list FD) :
  closed_under F (compute_closure X F)
  ∧ (∀ s, X ⊆ s → closed_under F s → compute_closure X F ⊆ s)
  ∧ (∀ X', X ⊆ X' → compute_closure X F ⊆ compute_closure X' F)
  ∧ (∀ F', (∀ fd, fd ∈ F → fd ∈ F') → compute_closure X F ⊆ compute_closure X F').
Proof.
  split; [apply closure_closed|]. split; [intros s; apply closure_least|].
  split; [intros X'; apply closure_mono | intros F'; apply closure_sublist].
Qed.

(** The closure adds nothing but dependents of the FDs; without FDs it is
    the set it started from. *)
Theorem closure_bounded (X : gset string) (F : list FD) :
  compute_closure X F ⊆ X ∪ dependents F ∧ compute_closure X [] = X.
Proof.
  split.
  - apply closure_within; [set_solver|]. intros fd Hfd. apply elem_of_union. right.
    unfold dependents. apply elem_of_list_to_set, list_elem_of_fmap. by exists fd.
  - apply closure_of_closed. intros fd Hfd. by apply elem_of_nil in Hfd.
Qed.

(** An FD is derivable from every list that contains it; an FD whose
    dependent is in its own determinant is derivable from every list, the
    empty one included; and what is derivable stays derivable when the list
    grows. *)
Theorem is_derivable_facts (fd : FD) (fd_set : list FD) :
  (fd ∈ fd_set → is_derivable fd fd_set = true)
  ∧ (dependent fd ∈ determinant fd → is_derivable fd fd_set = true)
  ∧ (∀ fd_set', (∀ g, g ∈ fd_set → g ∈ fd_set') →
       is_derivable fd fd_set = true → is_derivable fd fd_set' = true).
Proof.
  unfold is_derivable. split; [|split].
  - intros Hin. apply bool_decide_eq_true.
    apply (closure_closed _ fd_set fd Hin), closure_extensive.
  - intros Hin. apply bool_decide_eq_true. apply closure_extensive.
    by apply elem_of_list_to_set.
  - intros fd_set' Hsub Hd. apply bool_decide_eq_true. apply bool_decide_eq_true in Hd.
    by apply (closure_sublist _ fd_set fd_set' Hsub).
Qed.

(** ** Minimal cover *)

(** The cover never derives what the input did not: for every attribute
    set, the closure under the cover is inside the closure under the
    input. *)
Theorem minimal_cover_no_new_consequences (X : gset string) (fds : list FD) :
  compute_closure X (compute_minimal_cover fds) ⊆ compute_closure X fds.
Proof. apply minimal_cover_sound. Qed.

Lemma length_join_imap_le {A} (f : nat → A → list A) (l : list A) :
  (∀ i x, length (f i x) ≤ 1) → length (mjoin (imap f l)) ≤ length l.
Proof.
  revert f. induction l as [|x l IH]; intros f Hf; simpl; [done|].
  rewrite length_app. pose proof (Hf 0 x) as H0.
  assert (length (mjoin (imap (f ∘ S) l)) ≤ length l) as H1.
  { apply IH. intros i y. unfold compose. apply Hf. }
  lia.
Qed.

(** Every FD of the cover has the dependent of an input FD and a
    determinant made of attributes of that FD's determinant; the cover is
    no longer than the input. *)
Theorem minimal_cover_from_input (fds : list FD) :
  (∀ fd', fd' ∈ compute_minimal_cover fds →
     ∃ fd, fd ∈ fds ∧ dependent fd' = dependent fd ∧ determinant fd' ⊆ determinant fd)
  ∧ length (compute_minimal_cover fds) ≤ length fds.
Proof.
  split; [intros fd'; apply minimal_cover_origin|].
  unfold compute_minimal_cover. rewrite length_map.
  rewrite <- (length_map sort_determinant fds).
  unfold remove_redundant_fds. apply length_join_imap_le.
  intros i x. destruct (is_derivable _ _); simpl; lia.
Qed.

(** ** BCNF decomposition, continued *)

Section BCNFMore.

Implicit Types (fds : list FD) (keys : list CandidateKey).

(** A split on an FD whose dependent is in its determinant gives the same
    set back as second half, and the recursion on it never ends. *)
Lemma bcnf_decompose_loops keys fuel cols fds cols' fds' fd :
  find_violation (list_to_set cols) (relevant (list_to_set cols) fds) = Some fd →
  dependent fd ∈ determinant fd →
  (list_to_set cols' : gset string) = list_to_set cols →
  relevant (list_to_set cols) fds' = relevant (list_to_set cols) fds →
  bcnf_decompose keys fuel cols' fds' = None.
Proof.
  intros Hv Hin. revert cols' fds'.
  induction fuel as [|fuel IH]; intros cols' fds' Hcols Hrel; [done|].
  simpl. rewrite Hcols, Hrel, Hv.
  pose proof (find_violation_Some _ _ _ Hv) as [(_ & Hdet & Hdep)%elem_of_relevant _].
  rewrite (IH (elements (split_r2 (list_to_set cols) fd)) (relevant (list_to_set cols) fds)).
  - by destruct (bcnf_decompose keys fuel (elements (split_r1 fd)) _).
  - rewrite list_to_set_elements_L. unfold split_r2. apply set_eq. intros x.
    destruct (decide (x = dependent fd)) as [->|]; [|set_solver].
    split; [set_solver|]. intros _. apply elem_of_union. right.
    by apply elem_of_list_to_set.
  - by apply relevant_relevant.
Qed.

Lemma covered_by_name_tables ts : covered_by (name_tables ts) = covered_by ts.
Proof.
  unfold covered_by, name_tables. f_equal. rewrite <- list_fmap_compose.
  by apply list_fmap_ext.
Qed.

Lemma bcnf_decompose_covers keys fuel cols fds tables :
  bcnf_decompose keys fuel cols fds = Some tables → covered_by tables = list_to_set cols.
Proof.
  revert cols fds tables. induction fuel as [|fuel IH]; intros cols fds tables Hd; [done|].
  simpl in Hd. destruct (find_violation _ _) as [fd|] eqn:Hv.
  - destruct (bcnf_decompose keys fuel (elements (split_r1 fd)) _) as [t1|] eqn:E1; [|done].
    destruct (bcnf_decompose keys fuel (elements (split_r2 _ fd)) _) as [t2|] eqn:E2; [|done].
    simpl in Hd. inversion Hd; subst tables.
    rewrite covered_by_app, (IH _ _ _ E1), (IH _ _ _ E2), !list_to_set_elements_L.
    apply find_violation_Some in Hv as [(_ & Hdet & Hdep)%elem_of_relevant _].
    unfold split_r1, split_r2. apply set_eq. intros x.
    destruct (decide (x = dependent fd)) as [->|]; set_solver.
  - inversion Hd; subst tables. by rewrite covered_by_singleton.
Qed.

End BCNFMore.

(** When the FD the decomposition splits on has its dependent inside its
    own determinant, the recursion never comes back, whatever depth it is
    given: [decompose_bcnf] has no result. *)
Theorem bcnf_decompose_diverges (cols : list string) (fds : list FD)
    (keys : list CandidateKey) (fd : FD) :
  find_violation (list_to_set cols) (relevant (list_to_set cols) fds) = Some fd →
  dependent fd ∈ determinant fd →
  (∀ fuel, bcnf_decompose keys fuel cols fds = None)
  ∧ decompose_bcnf cols fds keys = None.
Proof.
  intros Hv Hin.
  assert (∀ fuel, bcnf_decompose keys fuel cols fds = None) as H.
  { intros fuel. by apply (bcnf_decompose_loops keys fuel cols fds cols fds fd). }
  split; [done|]. unfold decompose_bcnf. by rewrite H.
Qed.

Lemma bcnf_decompose_diverges_witness :
  decompose_bcnf ["a"; "b"] [mkFD ["a"] "a"] [] = None.
Proof.
  refine (proj2 (bcnf_decompose_diverges ["a"; "b"] [mkFD ["a"] "a"] [] (mkFD ["a"] "a") _ _)).
  - vm_compute. reflexivity.
  - apply (bool_decide_unpack _). vm_compute. exact I.
Defined.

(** The tables of a BCNF decomposition cover the input: the union of their
    column sets is the set of input columns. *)
Theorem decompose_bcnf_covers (cols : list string) (fds : list FD)
    (keys : list CandidateKey) (tables : list Table) :
  decompose_bcnf cols fds keys = Some tables → covered_by tables = list_to_set cols.
Proof.
  unfold decompose_bcnf. intros Hd.
  destruct (bcnf_decompose keys _ cols fds) as [ts|] eqn:E; [|done].
  simpl in Hd. inversion Hd; subst tables.
  rewrite covered_by_name_tables. by eapply bcnf_decompose_covers.
Qed.

Lemma decompose_bcnf_covers_witness :
  covered_by [mkTable "dept_names" ["dept_id"; "dept_name"] ["dept_id"] None;
              mkTable "emps" ["emp_id"; "emp_name"; "dept_id"] ["emp_id"] None]
  = list_to_set ["emp_id"; "emp_name"; "dept_id"; "dept_name"].
Proof.
  apply (decompose_bcnf_covers _
           [mkFD ["emp_id"] "emp_name"; mkFD ["emp_id"] "dept_id"; mkFD ["dept_id"] "dept_name"]
           [mkCK ["emp_id"] true]).
  vm_compute. reflexivity.
Defined.

(** A column list on which no relevant FD violates BCNF comes back as the
    single table [main] with the columns as given and the key [find_key]
    finds; this is the case, in particular, when there is no FD at all. *)
Theorem decompose_bcnf_no_violation (cols : list string) (fds : list FD)
    (keys : list CandidateKey) :
  (find_violation (list_to_set cols) (relevant (list_to_set cols) fds) = None →
   decompose_bcnf cols fds keys = Some [mkTable "main" cols (find_key cols fds keys) None])
  ∧ decompose_bcnf cols [] keys = Some [mkTable "main" cols (find_key cols [] keys) None].
Proof.
  assert (∀ fds, find_violation (list_to_set cols) (relevant (list_to_set cols) fds) = None →
            decompose_bcnf cols fds keys
            = Some [mkTable "main" cols (find_key cols fds keys) None]) as H.
  { intros fds' Hv. unfold decompose_bcnf. simpl. by rewrite Hv. }
  split; [apply H | by apply H].
Qed.

(** [find_key] returns the columns of the first candidate key that fits
    into the column list, or else a set whose closure under the relevant
    FDs contains every column. *)
Theorem find_key_fits_or_superkey (cols : list string) (fds : list FD)
    (keys : list CandidateKey) :
  (∃ ck, ck ∈ keys ∧ find_key cols fds keys = ck_columns ck
         ∧ ck_columns ck ⊆ cols)
  ∨ (list_to_set cols : gset string) ⊆
      compute_closure (list_to_set (find_key cols fds keys))
                      (relevant (list_to_set cols) fds).
Proof.
  unfold find_key. destruct (find _ keys) as [ck|] eqn:Hck.
  - left. apply find_some in Hck as [Hin Hsub]. apply bool_decide_eq_true in Hsub.
    exists ck. split; [by apply list_elem_of_In|]. split; [done|].
    intros x Hx. set_solver.
  - right. destruct (find _ (relevant _ fds)) as [fd|] eqn:Hfd.
    + apply find_some in Hfd as [_ Hsub]. apply bool_decide_eq_true in Hsub.
      by rewrite list_to_set_elements_L.
    + apply closure_extensive.
Qed.

(** ** Foreign keys *)

(** Every inferred foreign key links a non-key column of one table to a
    table of another name whose primary key is that single column, under
    the same column name. *)
Theorem compute_foreign_keys_shape (tables : list Table) (fk : ForeignKey) :
  fk ∈ compute_foreign_keys tables →
  ∃ child parent,
    child ∈ tables ∧ parent ∈ tables
    ∧ child_table fk = name child ∧ parent_table fk = name parent
    ∧ name parent ≠ name child
    ∧ column fk ∈ columns child ∧ column fk ∉ primary_key child
    ∧ parent_column fk = column fk
    ∧ (list_to_set (primary_key parent) : gset string) = {[column fk]}.
Proof.
  unfold compute_foreign_keys.
  intros (child & Hfk & Hchild)%list_elem_of_bind.
  apply list_elem_of_bind in Hfk as (parent & Hfk & Hparent).
  destruct (decide (name parent = name child)) as [|Hne]; [by apply elem_of_nil in Hfk|].
  apply list_elem_of_bind in Hfk as (col & Hfk & Hcol).
  apply list_elem_of_filter in Hcol as [Hnk Hc].
  destruct (bool_decide (col ∈ _)) eqn:Hin; simpl in Hfk; [|by apply elem_of_nil in Hfk].
  destruct (size _ =? 1) eqn:Hsz; [|by apply elem_of_nil in Hfk].
  apply list_elem_of_singleton in Hfk as ->. simpl.
  apply bool_decide_eq_true in Hin. apply Nat.eqb_eq in Hsz.
  exists child, parent. repeat split; try done.
  apply size_1_elem_of in Hsz as [y Hy]. apply leibniz_equiv in Hy.
  rewrite Hy in Hin |- *. apply elem_of_singleton in Hin as ->. done.
Qed.

Lemma compute_foreign_keys_shape_witness :
  ∃ child parent,
    child ∈ [mkTable "emps" ["emp_id"; "emp_name"; "dept_id"] ["emp_id"] None;
             mkTable "dept_names" ["dept_id"; "dept_name"] ["dept_id"] None]
    ∧ parent ∈ [mkTable "emps" ["emp_id"; "emp_name"; "dept_id"] ["emp_id"] None;
                mkTable "dept_names" ["dept_id"; "dept_name"] ["dept_id"] None]
    ∧ "emps" = name child ∧ "dept_names" = name parent
    ∧ name parent ≠ name child
    ∧ "dept_id" ∈ columns child ∧ "dept_id" ∉ primary_key child
    ∧ "dept_id" = "dept_id"
    ∧ (list_to_set (primary_key parent) : gset string) = {["dept_id"]}.
Proof.
  apply (compute_foreign_keys_shape
           [mkTable "emps" ["emp_id"; "emp_name"; "dept_id"] ["emp_id"] None;
            mkTable "dept_names" ["dept_id"; "dept_name"] ["dept_id"] None]
           (mkFK "emps" "dept_id" "dept_names" "dept_id")).
  vm_compute. constructor.
Defined.

(** ** 3NF synthesis, continued *)

Section Synthesis3NFMore.

Implicit Types (fds : list FD) (keys : list CandidateKey) (ts : list Table)
  (groups : list (list string * list string)).

(** Appending keeps every group, possibly with one more dependent, and
    the group of the appended determinant holds the dependent. *)
Lemma group_append_keeps det dep groups k deps :
  (k, deps) ∈ groups →
  ∃ deps', (k, deps') ∈ group_append det dep groups ∧ deps ⊆ deps'.
Proof.
  induction groups as [|[k0 d0] groups IH]; intros Hin; [by apply elem_of_nil in Hin|].
  simpl. apply elem_of_cons in Hin as [[= <- <-]|Hin].
  - destruct (decide (k = det)).
    + exists (deps ++ [dep]). split; [by left | set_solver].
    + exists deps. split; [by left | done].
  - destruct (decide (k0 = det)).
    + exists deps. split; [by right | done].
    + destruct (IH Hin) as (deps' & H1 & H2). exists deps'. split; [by right | done].
Qed.

Lemma group_append_holds det dep groups :
  ∃ deps, (det, deps) ∈ group_append det dep groups ∧ dep ∈ deps.
Proof.
  induction groups as [|[k0 d0] groups IH]; simpl.
  - exists [dep]. split; by left.
  - destruct (decide (k0 = det)) as [->|].
    + exists (d0 ++ [dep]). split; [by left | set_solver].
    + destruct IH as (deps & H1 & H2). exists deps. split; [by right | done].
Qed.

Lemma group_fold_keeps groups fds k deps :
  (k, deps) ∈ groups →
  ∃ deps', (k, deps') ∈
      foldl (λ groups fd, group_append (sorted (determinant fd)) (dependent fd) groups)
            groups fds
    ∧ deps ⊆ deps'.
Proof.
  revert groups deps. induction fds as [|fd fds IH]; intros groups deps Hin; simpl.
  - by exists deps.
  - destruct (group_append_keeps (sorted (determinant fd)) (dependent fd) _ _ _ Hin)
      as (d1 & H1 & S1).
    destruct (IH _ _ H1) as (d2 & H2 & S2). exists d2. split; [done | by etrans].
Qed.

Lemma group_fold_holds groups fds fd :
  fd ∈ fds →
  ∃ deps, (sorted (determinant fd), deps) ∈
      foldl (λ groups fd, group_append (sorted (determinant fd)) (dependent fd) groups)
            groups fds
    ∧ dependent fd ∈ deps.
Proof.
  revert groups. induction fds as [|g fds IH]; intros groups Hin; [by apply elem_of_nil in Hin|].
  simpl. apply elem_of_cons in Hin as [->|Hin]; [|by apply IH].
  destruct (group_append_holds (sorted (determinant g)) (dependent g) groups) as (d1 & H1 & D1).
  destruct (group_fold_keeps _ fds _ _ H1) as (d2 & H2 & S2).
  exists d2. split; [done | by apply S2].
Qed.

(** The determinants of the groups are pairwise different. *)
Lemma group_append_keys det dep groups :
  NoDup (map fst groups) → NoDup (map fst (group_append det dep groups))
  ∧ (∀ k, k ∈ map fst (group_append det dep groups) → k = det ∨ k ∈ map fst groups).
Proof.
  induction groups as [|[k0 d0] groups IH]; intros Hnd; simpl.
  - split; [apply NoDup_singleton|]. intros k Hk%list_elem_of_singleton. by left.
  - apply NoDup_cons in Hnd as [Hk0 Hnd]. destruct (decide (k0 = det)) as [->|Hne]; simpl.
    + split; [by apply NoDup_cons|]. intros k Hk. by right.
    + destruct (IH Hnd) as [I1 I2]. split.
      * apply NoDup_cons. split; [|done]. intros Hin. destruct (I2 _ Hin); [congruence | done].
      * intros k [->|Hk]%elem_of_cons; [right; by left|].
        destruct (I2 _ Hk); [by left | right; by right].
Qed.

Lemma group_fold_keys groups fds :
  NoDup (map fst groups) →
  NoDup (map fst
    (foldl (λ groups fd, group_append (sorted (determinant fd)) (dependent fd) groups)
           groups fds)).
Proof.
  revert groups. induction fds as [|fd fds IH]; intros groups Hnd; simpl; [done|].
  apply IH. by apply group_append_keys.
Qed.

(** Tables that come from an FD group survive the extension of the
    key-only table, and no other table with a source FD appears. *)
Lemma extend_main_fd_tables extra ts ts' :
  extend_main extra ts = Some ts' →
  filter (λ t, is_Some (source_fd t)) ts' = filter (λ t, is_Some (source_fd t)) ts.
Proof.
  revert ts'. induction ts as [|t ts IH]; intros ts' He; simpl in He; [done|].
  destruct (source_fd t) as [s|] eqn:Hs.
  - destruct (extend_main extra ts) as [r|] eqn:Hr; [|done]. simpl in He.
    inversion He; subst ts'. rewrite !filter_cons, (IH _ eq_refl). done.
  - inversion He; subst ts'. rewrite !filter_cons. simpl. rewrite Hs.
    destruct (decide (is_Some None)) as [[? ?]|]; done.
Qed.

Lemma filter_fd_tables_all groups :
  filter (λ t, is_Some (source_fd t)) (map fd_table groups) = map fd_table groups.
Proof.
  induction groups as [|[k d] groups IH]; [done|].
  simpl. rewrite filter_cons. simpl.
  destruct (decide (is_Some (Some (k, d)))) as [|Hn]; [by rewrite IH|].
  exfalso. apply Hn. by eexists.
Qed.

(** The tables of the synthesis that carry a source FD are exactly the
    tables of the FD groups. *)
Lemma decompose_3nf_fd_tables cols fds keys :
  filter (λ t, is_Some (source_fd t)) (decompose_3nf cols fds keys)
  = map fd_table (group_by_determinant (compute_minimal_cover fds)).
Proof.
  unfold decompose_3nf.
  set (T0 := map fd_table (group_by_determinant (compute_minimal_cover fds))).
  assert (filter (λ t, is_Some (source_fd t)) T0 = T0) as H0 by apply filter_fd_tables_all.
  assert (∀ t, source_fd t = None → filter (λ t, is_Some (source_fd t)) (T0 ++ [t]) = T0) as H1.
  { intros t Ht. rewrite filter_app, H0, filter_cons, Ht.
    destruct (decide (is_Some None)) as [[? ?]|]; [done|]. by rewrite app_nil_r. }
  destruct keys as [|ck keys]; [done|].
  set (T1 := if bool_decide _ then T0 else T0 ++ _).
  assert (filter (λ t, is_Some (source_fd t)) T1 = T0) as H2.
  { subst T1. destruct (bool_decide _); [done|]. by apply H1. }
  destruct (bool_decide (_ ≠ ∅)); [|done].
  destruct (extend_main _ T1) as [ts'|] eqn:He.
  - by rewrite (extend_main_fd_tables _ _ _ He).
  - rewrite filter_app, H2, filter_cons. simpl.
    destruct (decide (is_Some (@None (list string * list string)))) as [[? ?]|]; [done|].
    by rewrite app_nil_r.
Qed.

(** When every table before the last carries a source FD, the extension
    goes to the last table. *)
Lemma extend_main_last extra ts t :
  Forall (λ t, is_Some (source_fd t)) ts → source_fd t = None →
  extend_main extra (ts ++ [t])
  = Some (ts ++ [mkTable (name t) (columns t ++ extra) (primary_key t) None]).
Proof.
  intros Hall Ht. induction Hall as [|x ts [s Hx] Hall IH]; simpl.
  - by rewrite Ht.
  - by rewrite Hx, IH.
Qed.

End Synthesis3NFMore.

(** The 3NF synthesis preserves the dependencies of the minimal cover:
    for every FD of the cover there is a table whose primary key is the
    FD's sorted determinant and whose columns hold the determinant and the
    dependent. *)
Theorem decompose_3nf_preserves_cover (cols : list string) (fds : list FD)
    (keys : list CandidateKey) (fd : FD) :
  fd ∈ compute_minimal_cover fds →
  ∃ t, t ∈ decompose_3nf cols fds keys
       ∧ primary_key t = sorted (determinant fd)
       ∧ determinant fd ⊆ columns t ∧ dependent fd ∈ columns t.
Proof.
  intros Hfd.
  destruct (group_fold_holds [] _ _ Hfd) as (deps & Hg & Hdep).
  exists (fd_table (sorted (determinant fd), deps)). split; [|split; [done|split]].
  - assert (fd_table (sorted (determinant fd), deps)
            ∈ filter (λ t, is_Some (source_fd t)) (decompose_3nf cols fds keys)) as Hin.
    { rewrite decompose_3nf_fd_tables. apply list_elem_of_fmap. by eexists. }
    by apply list_elem_of_filter in Hin as [_ ?].
  - simpl. intros x Hx. apply elem_of_app. left. by apply elem_of_sorted.
  - simpl. apply elem_of_app. by right.
Qed.

Lemma decompose_3nf_preserves_cover_witness :
  ∃ t, t ∈ decompose_3nf ["emp_id"; "emp_name"; "dept_id"; "dept_name"]
             [mkFD ["emp_id"] "emp_name"; mkFD ["emp_id"] "dept_id"; mkFD ["dept_id"] "dept_name"]
             [mkCK ["emp_id"] true]
       ∧ primary_key t = sorted ["dept_id"]
       ∧ ["dept_id"] ⊆ columns t ∧ "dept_name" ∈ columns t.
Proof.
  apply (decompose_3nf_preserves_cover _ _ _ (mkFD ["dept_id"] "dept_name")).
  apply (bool_decide_unpack _). vm_compute. exact I.
Defined.

(** The FD-derived tables of the synthesis have pairwise different primary
    keys: all FDs of the cover with the same determinant share one table. *)
Theorem decompose_3nf_one_table_per_determinant (cols : list string) (fds : list FD)
    (keys : list CandidateKey) :
  NoDup (map primary_key
           (filter (λ t, is_Some (source_fd t)) (decompose_3nf cols fds keys))).
Proof.
  rewrite decompose_3nf_fd_tables. rewrite <- list_fmap_compose.
  assert (∀ groups, map (primary_key ∘ fd_table) groups = map fst groups) as ->.
  { intros groups. apply list_fmap_ext. by intros i [k d]. }
  unfold group_by_determinant. apply group_fold_keys. constructor.
Qed.

(** Whenever the first candidate key lies within the input columns and is
    not covered by the FD tables, the synthesis adds the table [main_keys]
    and lists one of the key columns twice in it. *)
Theorem main_keys_repeats_a_column (cols : list string) (fds : list FD)
    (ck : CandidateKey) (keys : list CandidateKey) :
  list_to_set (ck_columns ck) ⊆ (list_to_set cols : gset string) →
  ¬ list_to_set (ck_columns ck) ⊆ fd_attrs (compute_minimal_cover fds) →
  ∃ t, t ∈ decompose_3nf cols fds (ck :: keys)
       ∧ name t = "main_keys" ∧ ¬ NoDup (columns t).
Proof.
  intros Hin Hnot. unfold decompose_3nf.
  rewrite covered_by_fd_tables.
  set (C := fd_attrs (compute_minimal_cover fds)) in *.
  set (T0 := map fd_table (group_by_determinant (compute_minimal_cover fds))).
  rewrite (bool_decide_eq_false_2 (list_to_set (ck_columns ck) ⊆ C)) by done.
  assert (∃ k, k ∈ (list_to_set (ck_columns ck) : gset string) ∧ k ∉ C) as (k & Hk & HkC).
  { destruct (decide (list_to_set (ck_columns ck) ∖ C = (∅ : gset string))) as [He|Hne].
    - exfalso. apply Hnot. intros x Hx. destruct (decide (x ∈ C)); [done|]. set_solver.
    - apply set_choose_L in Hne as [k Hk]. exists k. set_solver. }
  assert (k ∈ (list_to_set cols ∖ C : gset string)) as Hunc by set_solver.
  rewrite (bool_decide_eq_true_2 (list_to_set cols ∖ C ≠ ∅)) by set_solver.
  rewrite extend_main_last; [| |done].
  - eexists. split; [apply elem_of_app; right; apply list_elem_of_singleton; reflexivity|].
    split; [reflexivity|]. simpl.
    intros Hnd. apply NoDup_app in Hnd as (_ & Hdisj & _).
    apply (Hdisj k); by apply elem_of_elements.
  - subst T0. apply Forall_forall. intros t (g & -> & _)%list_elem_of_fmap.
    destruct g. by eexists.
Qed.

Lemma main_keys_repeats_a_column_witness :
  ∃ t, t ∈ decompose_3nf ["order_id"; "product_id"; "product_name"]
             [mkFD ["product_id"] "product_name"]
             [mkCK ["order_id"; "product_id"] true]
       ∧ name t = "main_keys" ∧ ¬ NoDup (columns t).
Proof.
  apply (main_keys_repeats_a_column _ _ (mkCK ["order_id"; "product_id"] true) []).
  - apply (bool_decide_unpack _). vm_compute. exact I.
  - apply (bool_decide_unpack _). vm_compute. exact I.
Defined.

(** ** FD discovery, continued *)

Section CheckFacts.

Implicit Types (pairs : list (row * cell)) (g : gmap row (gset value)) (k : row).

Lemma existsb_false {A} (f : A → bool) (l : list A) x :
  existsb f l = false → x ∈ l → f x = false.
Proof.
  intros He Hx. destruct (f x) eqn:Hf; [|done].
  rewrite <- He. symmetry. apply existsb_exists. exists x. split; [by apply list_elem_of_In | done].
Qed.

(** The rows [check_fd] works on have no missing cell, neither in the
    determinant nor in the dependent. *)
Lemma clean_rows_no_na df det dep p :
  p ∈ clean_rows df det dep → any_na (fst p) = false ∧ snd p ≠ None.
Proof.
  unfold clean_rows.
  set (pairs := map (λ r, (project df det r, cell_at df dep r)) (df_rows df)).
  destruct (existsb (λ p, any_na (fst p)) pairs || any_na (map snd pairs)) eqn:Hna.
  - intros [Hp _]%list_elem_of_filter. unfold any_na in *.
    rewrite existsb_app in Hp. apply orb_false_iff in Hp as [H1 H2].
    split; [done|]. simpl in H2. apply orb_false_iff in H2 as [H2 _].
    by apply bool_decide_eq_false in H2.
  - intros Hp. apply orb_false_iff in Hna as [H1 H2]. split.
    + by apply (existsb_false _ _ p H1).
    + unfold any_na in H2.
      assert (bool_decide (snd p = None) = false) as Hd.
      { apply (existsb_false _ _ (snd p) H2). apply list_elem_of_fmap. by exists p. }
      by apply bool_decide_eq_false in Hd.
Qed.

Lemma partition_values_absent pairs k : k ∉ map fst pairs → partition_values pairs k = ∅.
Proof.
  intros Hk. unfold partition_values.
  assert (filter (λ p, fst p = k) pairs = []) as ->; [|done].
  induction pairs as [|p pairs IH]; [done|].
  rewrite filter_cons. destruct (decide (fst p = k)) as [He|Hne].
  - exfalso. apply Hk. simpl. rewrite He. by left.
  - apply IH. intros Hin. apply Hk. by right.
Qed.

Lemma partition_values_cons p pairs k :
  partition_values (p :: pairs) k
  = (if decide (fst p = k) then from_option (λ v, {[v]}) ∅ (snd p) else ∅)
    ∪ partition_values pairs k.
Proof.
  unfold partition_values. rewrite filter_cons.
  destruct (decide (fst p = k)); simpl.
  - destruct (snd p); simpl; set_solver.
  - set_solver.
Qed.

(** What the grouping holds for a determinant value: the dependent values
    of its rows. *)
Lemma group_fold_lookup pairs g k :
  Forall (λ p, any_na (fst p) = false) pairs →
  foldl group_insert g pairs !! k
  = if bool_decide (k ∈ map fst pairs)
    then Some (partition_values pairs k ∪ default ∅ (g !! k))
    else g !! k.
Proof.
  revert g. induction pairs as [|[k0 d0] pairs IH]; intros g Hall.
  - rewrite (bool_decide_eq_false_2 (k ∈ map fst [])); [done | apply not_elem_of_nil].
  - apply Forall_cons in Hall as [H0 Hall]. simpl in H0.
    simpl foldl. rewrite (IH _ Hall), H0.
    change (map fst ((k0, d0) :: pairs)) with (k0 :: map fst pairs).
    rewrite partition_values_cons. simpl fst. simpl snd.
    destruct (decide (k0 = k)) as [->|Hne].
    + rewrite lookup_insert_eq. simpl.
      rewrite (bool_decide_eq_true_2 (k ∈ k :: map fst pairs)) by (by left).
      destruct (bool_decide (k ∈ map fst pairs)) eqn:Hin.
      * f_equal. set_solver.
      * apply bool_decide_eq_false in Hin.
        rewrite (partition_values_absent _ _ Hin). f_equal. set_solver.
    + rewrite lookup_insert_ne by done.
      assert (bool_decide (k ∈ k0 :: map fst pairs) = bool_decide (k ∈ map fst pairs)) as ->.
      { apply bool_decide_ext. rewrite elem_of_cons. naive_solver. }
      destruct (bool_decide (k ∈ map fst pairs)); [|done]. f_equal. set_solver.
Qed.

Lemma groupby_lookup pairs k :
  Forall (λ p, any_na (fst p) = false) pairs →
  groupby_nunique pairs !! k
  = if bool_decide (k ∈ map fst pairs) then Some (size (partition_values pairs k)) else None.
Proof.
  intros Hall. unfold groupby_nunique. rewrite lookup_fmap, group_fold_lookup by done.
  rewrite lookup_empty. destruct (bool_decide _); [|done]. simpl. f_equal. f_equal. set_solver.
Qed.

Lemma elem_of_partition_values pairs k v :
  v ∈ partition_values pairs k ↔ (k, Some v) ∈ pairs.
Proof.
  unfold partition_values. rewrite elem_of_list_to_set, list_elem_of_omap. split.
  - intros ([k' d] & [Hk Hp]%list_elem_of_filter & Hd). simpl in *. by subst.
  - intros Hp. exists (k, Some v). split; [|done]. by apply list_elem_of_filter.
Qed.

Lemma size_le_1 (s : gset value) : size s ≤ 1 ↔ ∀ x y, x ∈ s → y ∈ s → x = y.
Proof.
  split.
  - intros Hs x y Hx Hy. destruct (decide (x = y)) as [|Hne]; [done|]. exfalso.
    assert (size ({[x; y]} : gset value) ≤ size s) as Hle by (apply subseteq_size; set_solver).
    rewrite size_union in Hle by set_solver. rewrite !size_singleton in Hle. lia.
  - intros Hall. destruct (set_choose_or_empty s) as [[x Hx]|He].
    + assert (s = {[x]}) as -> by (apply set_eq; intros y; set_solver).
      by rewrite size_singleton.
    + apply size_empty_iff in He. lia.
Qed.

Lemma violations_zero_iff (groups : gmap row nat) :
  size (filter (λ kv, 1 < snd kv) groups) = 0 ↔ ∀ k n, groups !! k = Some n → n ≤ 1.
Proof.
  rewrite map_size_empty_iff, map_empty. split.
  - intros H k n Hk. destruct (decide (1 < n)) as [Hlt|]; [|lia].
    specialize (H k). assert (filter (λ kv, 1 < snd kv) groups !! k = Some n) as Hs.
    { by apply map_lookup_filter_Some. }
    congruence.
  - intros H k. destruct (filter _ groups !! k) as [n|] eqn:Hf; [|done].
    apply map_lookup_filter_Some in Hf as [Hk Hlt]. simpl in Hlt.
    specialize (H _ _ Hk). lia.
Qed.

End CheckFacts.

(** [check_fd] reports [holds] exactly when some row is left after rows
    with missing cells are dropped and the FD holds on the rows left: rows
    that agree on the determinant columns agree on the dependent column. *)
Theorem check_fd_holds_iff (df : Frame) (det : list string) (dep : string) :
  holds (check_fd df det dep) = true
  ↔ clean_rows df det dep ≠ [] ∧ fd_holds (clean_rows df det dep).
Proof.
  unfold check_fd.
  pose proof (clean_rows_no_na df det dep) as Hna.
  destruct (clean_rows df det dep) as [|p0 pairs] eqn:Hc; [by split; [|intros [? _]]|].
  set (rows := p0 :: pairs) in *. simpl holds.
  assert (Forall (λ p, any_na (fst p) = false) rows) as Hall.
  { apply Forall_forall. intros p Hp. by apply Hna. }
  rewrite Nat.eqb_eq, violations_zero_iff. split.
  - intros Hv. split; [done|]. intros p q Hp Hq Hk.
    destruct p as [k d], q as [k' d']. simpl in *. subst k'.
    destruct d as [v|]; [|by destruct (Hna _ Hp)].
    destruct d' as [v'|]; [|by destruct (Hna _ Hq)].
    f_equal. assert (size (partition_values rows k) ≤ 1) as Hs.
    { apply (Hv k). rewrite groupby_lookup by done.
      rewrite bool_decide_eq_true_2; [done|]. apply list_elem_of_fmap. by exists (k, Some v). }
    apply (proj1 (size_le_1 _) Hs); by apply elem_of_partition_values.
  - intros [_ Hh] k n Hk. rewrite groupby_lookup in Hk by done.
    destruct (bool_decide _); [|done]. inversion Hk; subst n.
    apply size_le_1. intros x y Hx%elem_of_partition_values Hy%elem_of_partition_values.
    specialize (Hh _ _ Hx Hy eq_refl). simpl in Hh. congruence.
Qed.

Section CheckBounds.

Local Open Scope Q_scope.

Lemma ratio_unit (v t : nat) : (v ≤ t)%nat → (0 < t)%nat → 0 <= ratio v t ∧ ratio v t <= 1.
Proof.
  intros Hv Ht. unfold ratio, Qle. simpl.
  assert (Z.pos (Pos.of_nat t) = Z.of_nat t) as ->.
  { destruct t as [|t]; [lia|]. rewrite <- Pos.of_nat_succ. lia. }
  lia.
Qed.

(** Rounding keeps a number of the unit interval inside it. *)
Lemma round4_unit (q : Q) : 0 <= q → q <= 1 → 0 <= round4 q ∧ round4 q <= 1.
Proof.
  intros H0 H1. unfold round4.
  destruct (round_half_even_bounds (q * inject_Z 10000)) as [B1 B2].
  change (inject_Z 10000) with (10000 # 1) in *.
  set (z := round_half_even (q * (10000 # 1))) in *.
  assert (- (1 # 2) <= inject_Z z) as L1 by lra.
  assert (inject_Z z <= (20001 # 2)) as L2 by lra.
  unfold Qle in *. simpl in L1, L2 |- *. lia.
Qed.

End CheckBounds.

(** The result of [check_fd]: the confidence lies between 0 and 1; when
    groups were counted there is at least one and the violations do not
    exceed them; the group count is left out exactly when no row without
    missing cells is left; and an FD that holds gets the status
    ["confirmed"]. *)
Theorem check_fd_bounds (df : Frame) (det : list string) (dep : string) :
  let r := check_fd df det dep in
  (0 <= confidence r)%Q ∧ (confidence r <= 1)%Q
  ∧ (∀ t, total_groups r = Some t → 0 < t ∧ violations r ≤ t)
  ∧ (total_groups r = None ↔ clean_rows df det dep = [])
  ∧ (holds r = true → status_of r = "confirmed").
Proof.
  unfold check_fd. pose proof (clean_rows_no_na df det dep) as Hna.
  destruct (clean_rows df det dep) as [|p0 pairs] eqn:Hc; simpl.
  { repeat split; try done. }
  set (rows := p0 :: pairs) in *.
  assert (Forall (λ p, any_na (fst p) = false) rows) as Hall.
  { apply Forall_forall. intros p Hp. by apply Hna. }
  set (groups := groupby_nunique rows).
  assert (0 < size groups) as Hpos.
  { assert (size groups ≠ 0); [|lia]. apply map_size_non_empty_iff. intros He.
    assert (groups !! fst p0 = None) as Hn by (rewrite He; apply lookup_empty).
    subst groups. rewrite groupby_lookup in Hn by done.
    rewrite bool_decide_eq_true_2 in Hn; [done|].
    apply list_elem_of_fmap. exists p0. split; [done | by left]. }
  assert (size (filter (λ kv, 1 < snd kv) groups) ≤ size groups) as Hle.
  { apply map_subseteq_size, map_filter_subseteq. }
  apply Nat.ltb_lt in Hpos as Hposb. rewrite Hposb.
  destruct (ratio_unit _ _ Hle Hpos) as [R0 R1].
  destruct (round4_unit (1 - ratio (size (filter (λ kv, 1 < snd kv) groups)) (size groups)))
    as [C0 C1]; [lra | lra |].
  split; [done|]. split; [done|]. split.
  { intros t [= <-]. done. }
  split; [by split|].
  intros Hh%Nat.eqb_eq. apply status_confirmed_iff. simpl. rewrite Hh.
  apply round4_no_violation.
Qed.

(** ** The list [detect_fds] returns *)

Section DetectShape.

Implicit Types (df : Frame) (fds : list DetectedFD).

Lemma elem_of_combinations2 (xs : list string) a b :
  (a, b) ∈ combinations2 xs → a ∈ xs ∧ b ∈ xs.
Proof.
  induction xs as [|x xs IH]; simpl; [by intros ?%elem_of_nil|].
  intros [Hin|Hin]%elem_of_app.
  - apply list_elem_of_fmap in Hin as (y & [= -> ->] & Hy). split; [by left | by right].
  - destruct (IH Hin). split; by right.
Qed.

Lemma detect_single_shape df threshold :
  Forall (well_shaped df threshold) (detect_single df threshold).
Proof.
  apply Forall_forall. intros d. unfold detect_single.
  intros (a & Hd & Ha)%list_elem_of_bind.
  apply list_elem_of_bind in Hd as (b & Hd & Hb).
  destruct (decide (a = b)) as [|Hne]; [by apply elem_of_nil in Hd|].
  destruct (Qle_bool _ _) eqn:Hq; [|by apply elem_of_nil in Hd].
  apply list_elem_of_singleton in Hd as ->. apply Qle_bool_iff in Hq.
  unfold well_shaped. simpl. repeat split; try done.
  - intros Hin%list_elem_of_singleton. congruence.
  - by left.
  - intros x Hx%list_elem_of_singleton. by subst.
Qed.

Lemma detect_pair_step_shape df threshold a b fds dep_col :
  a ∈ df_columns df → b ∈ df_columns df → dep_col ∈ df_columns df →
  Forall (well_shaped df threshold) fds →
  Forall (well_shaped df threshold) (detect_pair_step df threshold (a, b) fds dep_col).
Proof.
  intros Ha Hb Hdep Hall. unfold detect_pair_step.
  destruct (bool_decide _) eqn:Hin; [done|]. apply bool_decide_eq_false in Hin.
  destruct (Qle_bool _ _) eqn:Hq; [|done]. apply Qle_bool_iff in Hq.
  destruct (single_determines _ _ _ _); [done|].
  apply Forall_app. split; [done|]. apply Forall_singleton.
  unfold well_shaped. simpl. repeat split; try done.
  - intros [->|Hx]%elem_of_cons; [tauto|]. apply list_elem_of_singleton in Hx. tauto.
  - by right.
  - intros x [->|Hx]%elem_of_cons; [done|]. apply list_elem_of_singleton in Hx. by subst.
Qed.

Lemma detect_pairs_shape df threshold a b cols fds :
  a ∈ df_columns df → b ∈ df_columns df → cols ⊆ df_columns df →
  Forall (well_shaped df threshold) fds →
  Forall (well_shaped df threshold) (foldl (detect_pair_step df threshold (a, b)) fds cols).
Proof.
  intros Ha Hb. revert fds. induction cols as [|c cols IH]; intros fds Hsub Hall; [done|].
  simpl. apply IH; [intros x Hx; apply Hsub; by right|].
  apply detect_pair_step_shape; try done. apply Hsub. by left.
Qed.

Lemma detect_all_pairs_shape df threshold pairs fds :
  (∀ a b, (a, b) ∈ pairs → a ∈ df_columns df ∧ b ∈ df_columns df) →
  Forall (well_shaped df threshold) fds →
  Forall (well_shaped df threshold)
    (foldl (λ fds det_cols, foldl (detect_pair_step df threshold det_cols) fds (df_columns df))
           fds pairs).
Proof.
  revert fds. induction pairs as [|[a b] pairs IH]; intros fds Hp Hall; [done|].
  simpl. apply IH; [intros x y Hxy; apply Hp; by right|].
  destruct (Hp a b) as [Ha Hb]; [by left|].
  by apply detect_pairs_shape.
Qed.

Lemma high_card_cols_within df high :
  high_card_cols df = Ok high → high ⊆ df_columns df.
Proof.
  unfold high_card_cols. destruct (df_columns df) as [|c cols] eqn:Hc.
  - intros [= <-]. done.
  - destruct (df_rows df); [done|]. intros [= <-] x Hx%list_elem_of_filter. tauto.
Qed.

End DetectShape.

(** Every FD that discovery reports has one or two determinant columns of
    the frame, a dependent column of the frame that is not among them, and
    a confidence that reaches the threshold. *)
Theorem detect_fds_shape (df : Frame) (threshold : Q) (fds : list DetectedFD) :
  detect_fds df threshold = Ok fds → Forall (well_shaped df threshold) fds.
Proof.
  unfold detect_fds. destruct (high_card_cols df) as [high|e] eqn:Hh; [|done].
  intros [= <-]. apply detect_all_pairs_shape; [|apply detect_single_shape].
  intros a b [Ha Hb]%elem_of_combinations2.
  pose proof (high_card_cols_within _ _ Hh). split; auto.
Qed.

Lemma detect_fds_shape_witness :
  Forall (well_shaped
            (mkFrame ["a"; "b"] [[Some (VInt 1); Some (VStr "x")]; [Some (VInt 2); Some (VStr "x")]])
            (8 # 10)%Q)
    [mkDetected (mkFD ["a"] "b") (mkCheck true (Qmake 10000 10000) 0 (Some 2)) "confirmed"].
Proof.
  apply detect_fds_shape. vm_compute. reflexivity.
Defined.

(** Discovery fails exactly on a frame that has a column and no row, and
    then with the division by zero of the cardinality test. *)
Theorem detect_fds_fails_iff (df : Frame) (threshold : Q) :
  (detect_fds df threshold = Raise ZeroDivisionError
   ↔ df_columns df ≠ [] ∧ df_rows df = [])
  ∧ (∀ e, detect_fds df threshold = Raise e → e = ZeroDivisionError).
Proof.
  unfold detect_fds, high_card_cols.
  destruct (df_columns df) as [|c cols], (df_rows df) as [|r rows]; simpl;
    (split; [split; [try done; intros [? ?]; done | try done; intros [? ?]; done]
            | intros e He; by inversion He]).
Qed.

(** ** Candidate keys, continued *)

Section KeyFacts.

Implicit Types (df : Frame) (fds : list DetectedFD) (keys : list CandidateKey).

Lemma add_unique_columns_spec df keys cols ck :
  ck ∈ foldl (add_unique_column df) keys cols →
  ck ∈ keys ∨ ∃ col, col ∈ cols ∧ ck = mkCK [col] true ∧ is_unique_column df col = true.
Proof.
  revert keys. induction cols as [|c cols IH]; intros keys Hin; [by left|].
  simpl in Hin. apply IH in Hin as [Hin|(col & Hcol & Hck)].
  - unfold add_unique_column in Hin. destruct (is_unique_column df c) eqn:Hu; [|by left].
    destruct (existsb _ keys); [by left|].
    apply elem_of_app in Hin as [Hin|Hin]; [by left|].
    apply list_elem_of_singleton in Hin as ->. right. exists c. split; [by left | done].
  - right. exists col. split; [by right | done].
Qed.

Lemma dependents_confirmed fds : dependents (confirmed_fds fds) = all_dependents fds.
Proof. unfold dependents, confirmed_fds, all_dependents. by rewrite map_map. Qed.

Lemma determined_in_closure fds (key : gset string) :
  determined fds key ⊆ compute_closure key (confirmed_fds fds).
Proof.
  intros x. unfold determined. rewrite elem_of_list_to_set, list_elem_of_fmap.
  intros (d & -> & [[Hc Hsub] Hd]%list_elem_of_filter).
  apply (closure_closed _ _ (fd_of d)).
  - unfold confirmed_fds. apply list_elem_of_fmap. exists d. split; [done|].
    by apply list_elem_of_filter.
  - etrans; [exact Hsub | apply closure_extensive].
Qed.

(** A column that no confirmed FD has as dependent is in every set whose
    closure reaches all columns. *)
Lemma must_be_in_every_superkey df fds (K : gset string) :
  list_to_set (df_columns df) ⊆ compute_closure K (confirmed_fds fds) →
  must_be_in_key df fds ⊆ K.
Proof.
  intros Hsuper x Hx. unfold must_be_in_key in Hx.
  apply elem_of_difference in Hx as [Hcol Hnd].
  assert (compute_closure K (confirmed_fds fds) ⊆ K ∪ all_dependents fds) as Hb.
  { apply closure_within; [set_solver|]. intros fd Hfd. apply elem_of_union. right.
    rewrite <- dependents_confirmed. unfold dependents.
    apply elem_of_list_to_set, list_elem_of_fmap. by exists fd. }
  specialize (Hb x (Hsuper x Hcol)). set_solver.
Qed.

End KeyFacts.

(** Every candidate key that is reported is either a single column whose
    values are all different and never missing, or the set
    [must_be_in_key]; in the second case the set is not empty, its closure
    under the confirmed FDs contains every column, and it is contained in
    every attribute set with that property, so it is the one minimal
    key. *)
Theorem find_candidate_keys_sound (df : Frame) (fds : list DetectedFD) (ck : CandidateKey) :
  ck ∈ find_candidate_keys df fds →
  (∃ col, col ∈ df_columns df ∧ ck_columns ck = [col] ∧ is_unique_column df col = true)
  ∨ ((list_to_set (ck_columns ck) : gset string) = must_be_in_key df fds
     ∧ must_be_in_key df fds ≠ ∅
     ∧ list_to_set (df_columns df)
         ⊆ compute_closure (must_be_in_key df fds) (confirmed_fds fds)
     ∧ ∀ K : gset string,
         list_to_set (df_columns df) ⊆ compute_closure K (confirmed_fds fds) →
         must_be_in_key df fds ⊆ K).
Proof.
  unfold find_candidate_keys. intros [Hin|(col & Hcol & -> & Hu)]%add_unique_columns_spec.
  - right. unfold key_from_fds in Hin.
    destruct (bool_decide (must_be_in_key df fds ≠ ∅)) eqn:Hne; [|by apply elem_of_nil in Hin].
    destruct (bool_decide (_ = _)) eqn:Heq; [|by apply elem_of_nil in Hin].
    apply list_elem_of_singleton in Hin as ->. simpl.
    apply bool_decide_eq_true in Hne, Heq.
    split; [by rewrite sorted_set, list_to_set_elements_L|]. split; [done|]. split.
    + rewrite <- Heq. apply union_subseteq. split.
      * apply determined_in_closure.
      * apply closure_extensive.
    + intros K. apply must_be_in_every_superkey.
  - left. exists col. split; [|done].
    apply elem_of_elements in Hcol. by apply elem_of_list_to_set in Hcol.
Qed.

Lemma find_candidate_keys_sound_witness :
  (∃ col, col ∈ ["a"; "b"] ∧ ["a"] = [col]
     ∧ is_unique_column (mkFrame ["a"; "b"]
          [[Some (VInt 1); Some (VStr "x")]; [Some (VInt 2); Some (VStr "x")]]) col = true)
  ∨ ((list_to_set ["a"] : gset string)
       = must_be_in_key (mkFrame ["a"; "b"]
            [[Some (VInt 1); Some (VStr "x")]; [Some (VInt 2); Some (VStr "x")]])
           [mkDetected (mkFD ["a"] "b") (mkCheck true (Qmake 10000 10000) 0 (Some 2)) "confirmed"]
     ∧ must_be_in_key (mkFrame ["a"; "b"]
            [[Some (VInt 1); Some (VStr "x")]; [Some (VInt 2); Some (VStr "x")]])
           [mkDetected (mkFD ["a"] "b") (mkCheck true (Qmake 10000 10000) 0 (Some 2)) "confirmed"]
       ≠ ∅
     ∧ list_to_set ["a"; "b"]
         ⊆ compute_closure
             (must_be_in_key (mkFrame ["a"; "b"]
                [[Some (VInt 1); Some (VStr "x")]; [Some (VInt 2); Some (VStr "x")]])
               [mkDetected (mkFD ["a"] "b") (mkCheck true (Qmake 10000 10000) 0 (Some 2)) "confirmed"])
             (confirmed_fds
               [mkDetected (mkFD ["a"] "b") (mkCheck true (Qmake 10000 10000) 0 (Some 2)) "confirmed"])
     ∧ ∀ K : gset string,
         list_to_set ["a"; "b"] ⊆ compute_closure K
           (confirmed_fds
              [mkDetected (mkFD ["a"] "b") (mkCheck true (Qmake 10000 10000) 0 (Some 2)) "confirmed"]) →
         must_be_in_key (mkFrame ["a"; "b"]
            [[Some (VInt 1); Some (VStr "x")]; [Some (VInt 2); Some (VStr "x")]])
           [mkDetected (mkFD ["a"] "b") (mkCheck true (Qmake 10000 10000) 0 (Some 2)) "confirmed"]
         ⊆ K).
Proof.
  apply (find_candidate_keys_sound
           (mkFrame ["a"; "b"] [[Some (VInt 1); Some (VStr "x")]; [Some (VInt 2); Some (VStr "x")]])
           [mkDetected (mkFD ["a"] "b") (mkCheck true (Qmake 10000 10000) 0 (Some 2)) "confirmed"]
           (mkCK ["a"] true)).
  vm_compute. constructor.
Defined.

(** ** Replay, continued *)

Section ReplayMore.

Implicit Types (df : Frame) (config : TransformConfig) (t : Table) (w : World).


Lemma write_table_present df t w :
  all_present df t →
  write_table df () t w
  = (Returned (),
     mkWorld (<[table_path (name t) := synthesized df t]> (files w))
             (printed w ++ [Created (name t) (length (df_rows (synthesized df t)))])).
Proof.
  intros Hall. unfold write_table, mbind, M_bind, bind, lift.
  by rewrite select_present.
Qed.

Lemma write_tables_from df ts w :
  Forall (all_present df) ts →
  for_each ts (write_table df) () w
  = (Returned (),
     mkWorld (synthesize_all df (files w) ts)
             (printed w
                ++ map (λ t, Created (name t) (length (df_rows (synthesized df t)))) ts)).
Proof.
  unfold synthesize_all. revert w. induction ts as [|t ts IH]; intros w Hall; simpl.
  - rewrite app_nil_r. by destruct w.
  - apply Forall_cons in Hall as [Ht Hall]. unfold mbind, M_bind, bind.
    rewrite write_table_present by done. rewrite IH by done. simpl.
    by rewrite <- app_assoc.
Qed.





(** A strict run exits as soon as one of the messages contains the word
    it looks for. *)
Lemma check_input_strict_exits df config w :
  existsb (contains "Missing") (validate_input df config) = true →
  check_input df config true w
  = (Exited 1, mkWorld (files w)
                 (printed w ++ map Warning (validate_input df config) ++ [StrictAbort])).
Proof.
  intros Hm. unfold check_input, mbind, M_bind, bind.
  rewrite print_warnings, Hm. simpl. by rewrite <- app_assoc.
Qed.

Lemma prefix_app (n a b : string) : String.prefix n a = true → String.prefix n (a +:+ b) = true.
Proof.
  revert a. induction n as [|c n IH]; intros a; [intros _; by destruct (a +:+ b)|].
  destruct a as [|c' a]; simpl; [done|].
  destruct (Ascii.ascii_dec c c'); [apply IH | done].
Qed.

Lemma contains_app_l (n a b : string) : contains n a = true → contains n (a +:+ b) = true.
Proof.
  induction a as [|c a IH]; simpl.
  - rewrite orb_false_r. intros Hp. destruct n; [by destruct b | done].
  - intros [Hp|Hc]%orb_true_iff.
    + apply orb_true_iff. left. by apply (prefix_app n (String c a) b).
    + apply orb_true_iff. right. by apply IH.
Qed.

Lemma contains_app_r (n a b : string) : contains n b = true → contains n (a +:+ b) = true.
Proof.
  intros Hb. induction a as [|c a IH]; simpl; [done|].
  apply orb_true_iff. by right.
Qed.

Lemma contains_concat (n sep : string) (l : list string) x :
  x ∈ l → contains n x = true → contains n (String.concat sep l) = true.
Proof.
  intros Hx Hc. induction l as [|y l IH]; [by apply elem_of_nil in Hx|].
  simpl. destruct l as [|z l].
  - apply list_elem_of_singleton in Hx as ->. done.
  - apply elem_of_cons in Hx as [->|Hx].
    + by apply contains_app_l.
    + apply contains_app_r, contains_app_r. by apply IH.
Qed.

Lemma contains_repr_set (n : string) (xs : gset string) x :
  x ∈ xs → contains n x = true → contains n (repr_set xs) = true.
Proof.
  intros Hx Hc. unfold repr_set. apply contains_app_r, contains_app_l.
  apply (contains_concat _ _ _ ("'" +:+ x +:+ "'")).
  - apply list_elem_of_fmap. exists x. split; [done | by apply elem_of_elements].
  - by apply contains_app_r, contains_app_l.
Qed.

End ReplayMore.

(** For a table with columns without repetition that contain its key and
    are all present in the data, the synthesis and the replay write files
    with the same columns and the same rows up to their order. *)
Theorem replay_same_rows (df : Frame) (t : Table) (results : list TableResult)
    (w w' : World) :
  table_wf t → all_present df t →
  ∃ f_syn f_rep,
    files (write_table df () t w).2 !! table_path (name t) = Some f_syn
    ∧ files (transform_table df results t w').2 !! table_path (name t) = Some f_rep
    ∧ df_columns f_rep = df_columns f_syn
    ∧ df_rows f_rep ≡ₚ df_rows f_syn.
Proof.
  intros Hwf Hall. exists (synthesized df t), (replayed df t).
  rewrite write_table_present, transform_table_present by done. simpl.
  rewrite !lookup_insert_eq. repeat split; try done.
  unfold replayed, synthesized. simpl. apply merge_sort_Permutation.
Qed.

Lemma replay_same_rows_witness :
  ∃ f_syn f_rep,
    files (write_table
             (mkFrame ["dept_id"; "dept_name"]
                [[Some (VInt 20); Some (VStr "dev")]; [Some (VInt 10); Some (VStr "ops")]])
             () (mkTable "depts" ["dept_id"; "dept_name"] ["dept_id"] None)
             (mkWorld ∅ [])).2 !! table_path "depts" = Some f_syn
    ∧ files (transform_table
               (mkFrame ["dept_id"; "dept_name"]
                  [[Some (VInt 20); Some (VStr "dev")]; [Some (VInt 10); Some (VStr "ops")]])
               [] (mkTable "depts" ["dept_id"; "dept_name"] ["dept_id"] None)
               (mkWorld ∅ [])).2 !! table_path "depts" = Some f_rep
    ∧ df_columns f_rep = df_columns f_syn
    ∧ df_rows f_rep ≡ₚ df_rows f_syn.
Proof.
  apply (replay_same_rows _ (mkTable "depts" ["dept_id"; "dept_name"] ["dept_id"] None)).
  - apply (bool_decide_unpack _). vm_compute. exact I.
  - apply (bool_decide_unpack _). vm_compute. exact I.
Defined.


(** The input check has nothing to report exactly when the data has the
    columns of the configuration and no others; a strict run is then the
    same as a run that is not strict. *)
Theorem validate_input_empty_iff (df : Frame) (config : TransformConfig) (w : World) :
  (validate_input df config = []
   ↔ (list_to_set (df_columns df) : gset string) = list_to_set (original_columns config))
  ∧ (validate_input df config = [] →
     transform df config true w = transform df config false w).
Proof.
  split.
  - unfold validate_input, missing_columns, extra_columns.
    set (O := list_to_set (original_columns config) : gset string).
    set (D := list_to_set (df_columns df) : gset string).
    destruct (decide (O ∖ D ≠ ∅)) as [H1|H1].
    { rewrite (bool_decide_eq_true_2 _ H1). split; [done|]. intros Heq. exfalso. apply H1.
      rewrite Heq. set_solver. }
    rewrite (bool_decide_eq_false_2 _ H1).
    destruct (decide (D ∖ O ≠ ∅)) as [H2|H2].
    { rewrite (bool_decide_eq_true_2 _ H2). split; [done|]. intros Heq. exfalso. apply H2.
      rewrite Heq. set_solver. }
    rewrite (bool_decide_eq_false_2 _ H2). split; [|done]. intros _.
    destruct (decide (O ∖ D = ∅)) as [E1|]; [|done].
    destruct (decide (D ∖ O = ∅)) as [E2|]; [|done].
    apply set_eq. intros x.
    destruct (decide (x ∈ D)); destruct (decide (x ∈ O)); set_solver.
  - intros He. unfold transform, check_input. by rewrite He.
Qed.

Lemma validate_input_empty_iff_witness :
  transform (mkFrame ["a"] [[Some (VInt 1)]])
    (mkConfig "1.0" ["a"] [mkTable "main" ["a"] ["a"] None] None) true (mkWorld ∅ [])
  = transform (mkFrame ["a"] [[Some (VInt 1)]])
      (mkConfig "1.0" ["a"] [mkTable "main" ["a"] ["a"] None] None) false (mkWorld ∅ []).
Proof.
  apply (proj2 (validate_input_empty_iff _ _ _)). vm_compute. reflexivity.
Defined.

(** A strict run also exits, before anything is written, when the data
    has an extra column whose name contains ["Missing"], whether or not a
    column is missing: the test looks for the word in every message, the
    one about extra columns included. *)
Theorem strict_exits_on_extra_column_named_missing (df : Frame) (config : TransformConfig)
    (w : World) (c : string) :
  c ∈ extra_columns df config → contains "Missing" c = true →
  transform df config true w
  = (Exited 1, mkWorld (files w)
                 (printed w ++ map Warning (validate_input df config) ++ [StrictAbort])).
Proof.
  intros Hc Hm. unfold transform, mbind, M_bind, bind.
  rewrite check_input_strict_exits; [done|].
  unfold validate_input. rewrite existsb_app. apply orb_true_iff. right.
  rewrite (bool_decide_eq_true_2 (extra_columns df config ≠ ∅)) by set_solver.
  set (msg := "Extra columns (will be ignored): " +:+ repr_set (extra_columns df config)).
  change (existsb (contains "Missing") [msg]) with (contains "Missing" msg || false).
  rewrite orb_false_r. subst msg. apply contains_app_r. by apply (contains_repr_set _ _ c).
Qed.

Lemma strict_exits_on_extra_column_named_missing_witness :
  transform (mkFrame ["id"; "Missing_flag"] [[Some (VInt 1); Some (VInt 0)]])
    (mkConfig "1.0" ["id"] [mkTable "main" ["id"] ["id"] None] None) true (mkWorld ∅ [])
  = (Exited 1,
     mkWorld (files (mkWorld ∅ []))
       (printed (mkWorld ∅ [])
          ++ map Warning
               (validate_input (mkFrame ["id"; "Missing_flag"] [[Some (VInt 1); Some (VInt 0)]])
                  (mkConfig "1.0" ["id"] [mkTable "main" ["id"] ["id"] None] None))
          ++ [StrictAbort])).
Proof.
  apply (strict_exits_on_extra_column_named_missing _ _ _ "Missing_flag").
  - apply (bool_decide_unpack _). vm_compute. exact I.
  - vm_compute. reflexivity.
Defined.

(** ** The synthesis run *)

Section NormalizeFacts.

Implicit Types (df : Frame) (fds : list FD) (keys : list CandidateKey).

(** With FDs and a first candidate key that mention only input columns,
    no table of the 3NF synthesis has a column from elsewhere. *)
Lemma decompose_3nf_within cols fds keys :
  fd_attrs fds ⊆ list_to_set cols →
  (∀ ck, head keys = Some ck → list_to_set (ck_columns ck) ⊆ (list_to_set cols : gset string)) →
  covered_by (decompose_3nf cols fds keys) ⊆ list_to_set cols.
Proof.
  intros Hfds Hkey. unfold decompose_3nf.
  pose proof (covered_by_fd_tables (compute_minimal_cover fds)) as Hcov.
  pose proof (minimal_cover_attrs fds) as Hattrs.
  set (T0 := map fd_table (group_by_determinant (compute_minimal_cover fds))) in *.
  assert (covered_by T0 ⊆ list_to_set cols) as HC by set_solver.
  clear Hcov Hattrs Hfds.
  destruct keys as [|ck keys]; [done|].
  specialize (Hkey ck eq_refl).
  set (T1 := if bool_decide _ then T0 else T0 ++ _).
  assert (covered_by T1 ⊆ list_to_set cols) as H1.
  { subst T1. destruct (bool_decide _); [done|].
    rewrite covered_by_app, covered_by_singleton. simpl. rewrite list_to_set_elements_L.
    by apply union_subseteq. }
  destruct (bool_decide (_ ≠ ∅)); [|done].
  destruct (extend_main _ T1) as [ts'|] eqn:He.
  - apply extend_main_spec in He as [-> _]. rewrite list_to_set_elements_L.
    apply union_subseteq. split; [done|]. apply subseteq_difference_l. done.
  - rewrite covered_by_app, covered_by_singleton. simpl.
    rewrite list_to_set_app_L, list_to_set_elements_L.
    repeat (apply union_subseteq; split); try done. by apply subseteq_difference_l.
Qed.

End NormalizeFacts.

(** A target that is none of 3NF, 3, BCNF and BC, in any letter case,
    makes the run exit with code 1 after the message, before any file is
    written. *)
Theorem normalize_unsupported_target (df : Frame) (config : NormalizeConfig)
    (target_nf : string) (w : World) :
  upper target_nf ∉ ["3NF"; "3"; "BCNF"; "BC"] →
  normalize df config target_nf w
  = (Exited 1, mkWorld (files w) (printed w ++ [Unsupported target_nf])).
Proof.
  intros Hn. unfold normalize, decompose, mbind, M_bind, bind.
  rewrite (bool_decide_eq_false_2 (upper target_nf ∈ ["3NF"; "3"])).
  2:{ intros Hin. apply Hn. set_solver. }
  rewrite (bool_decide_eq_false_2 (upper target_nf ∈ ["BCNF"; "BC"])).
  2:{ intros Hin. apply Hn. set_solver. }
  reflexivity.
Qed.

Lemma normalize_unsupported_target_witness :
  normalize (mkFrame ["a"] [[Some (VInt 1)]]) (mkNormalizeConfig [] []) "4nf" (mkWorld ∅ [])
  = (Exited 1, mkWorld (files (mkWorld ∅ [])) (printed (mkWorld ∅ []) ++ [Unsupported "4nf"])).
Proof.
  apply normalize_unsupported_target.
  apply (bool_decide_unpack _). vm_compute. exact I.
Defined.

(** When the confirmed FDs and the first candidate key mention only
    columns of the data, the 3NF run returns: it writes, for every table of
    the decomposition in turn, the distinct rows of the data projected on
    the table's columns, and the configuration it returns lists the
    columns of the data and the tables with their names, columns and
    keys. *)
Theorem normalize_3nf_succeeds (df : Frame) (config : NormalizeConfig) (w : World) :
  let confirmed :=
    map cfd (filter (λ fd, Is_true (is_confirmed fd)) (functional_dependencies config)) in
  let ts := decompose_3nf (df_columns df) confirmed (candidate_keys config) in
  fd_attrs confirmed ⊆ list_to_set (df_columns df) →
  (∀ ck, head (candidate_keys config) = Some ck →
         list_to_set (ck_columns ck) ⊆ (list_to_set (df_columns df) : gset string)) →
  ∃ tc evs,
    normalize df config "3NF" w
    = (Returned tc, mkWorld (synthesize_all df (files w) ts) (printed w ++ evs))
    ∧ original_columns tc = df_columns df
    ∧ map (λ t, (name t, columns t, primary_key t)) (tables tc)
      = map (λ t, (name t, columns t, primary_key t)) ts
    ∧ foreign_keys tc = Some (compute_foreign_keys ts).
Proof.
  intros confirmed ts Hfds Hkey.
  assert (Forall (all_present df) ts) as Hall.
  { apply Forall_forall. intros t Ht x Hx.
    pose proof (decompose_3nf_within _ _ _ Hfds Hkey) as Hsub.
    assert (x ∈ covered_by ts) as Hc by (apply elem_of_covered_by; by exists t).
    apply Hsub in Hc. by apply elem_of_list_to_set in Hc. }
  unfold normalize, decompose, mbind, M_bind, bind.
  change (bool_decide (upper "3NF" ∈ ["3NF"; "3"])) with true. cbv iota.
  fold confirmed. fold ts. unfold ret at 1.
  rewrite write_tables_from by done. unfold ret.
  eexists _, _. split; [reflexivity|]. simpl. split; [done|]. split; [|done].
  rewrite <- list_fmap_compose. by apply list_fmap_ext.
Qed.

Lemma normalize_3nf_succeeds_witness :
  ∃ tc evs,
    normalize (mkFrame ["dept_id"; "dept_name"]
                 [[Some (VInt 20); Some (VStr "dev")]; [Some (VInt 10); Some (VStr "ops")]])
      (mkNormalizeConfig [mkConfigFD (mkFD ["dept_id"] "dept_name") (Some "confirmed") None]
         [mkCK ["dept_id"] true])
      "3NF" (mkWorld ∅ [])
    = (Returned tc,
       mkWorld (synthesize_all
                  (mkFrame ["dept_id"; "dept_name"]
                     [[Some (VInt 20); Some (VStr "dev")]; [Some (VInt 10); Some (VStr "ops")]])
                  (files (mkWorld ∅ []))
                  (decompose_3nf ["dept_id"; "dept_name"]
                     (map cfd (filter (λ fd, Is_true (is_confirmed fd))
                        [mkConfigFD (mkFD ["dept_id"] "dept_name") (Some "confirmed") None]))
                     [mkCK ["dept_id"] true]))
               (printed (mkWorld ∅ []) ++ evs))
    ∧ original_columns tc = ["dept_id"; "dept_name"]
    ∧ map (λ t, (name t, columns t, primary_key t)) (tables tc)
      = map (λ t, (name t, columns t, primary_key t))
          (decompose_3nf ["dept_id"; "dept_name"]
             (map cfd (filter (λ fd, Is_true (is_confirmed fd))
                [mkConfigFD (mkFD ["dept_id"] "dept_name") (Some "confirmed") None]))
             [mkCK ["dept_id"] true])
    ∧ foreign_keys tc
      = Some (compute_foreign_keys
          (decompose_3nf ["dept_id"; "dept_name"]
             (map cfd (filter (λ fd, Is_true (is_confirmed fd))
                [mkConfigFD (mkFD ["dept_id"] "dept_name") (Some "confirmed") None]))
             [mkCK ["dept_id"] true])).
Proof.
  apply (normalize_3nf_succeeds
           (mkFrame ["dept_id"; "dept_name"]
              [[Some (VInt 20); Some (VStr "dev")]; [Some (VInt 10); Some (VStr "ops")]])
           (mkNormalizeConfig [mkConfigFD (mkFD ["dept_id"] "dept_name") (Some "confirmed") None]
              [mkCK ["dept_id"] true])
           (mkWorld ∅ [])).
  - apply (bool_decide_unpack _). vm_compute. exact I.
  - intros ck [= <-]. apply (bool_decide_unpack _). vm_compute. exact I.
Defined.

(** ** Normal form assessment *)

Section AssessFacts.

Implicit Types (df : Frame) (fds : list DetectedFD) (keys : list CandidateKey).

Lemma filter_id {A} (P : A → Prop) `{∀ x, Decision (P x)} (l : list A) :
  Forall P l → filter P l = l.
Proof.
  induction 1 as [|x l Hx Hl IH]; [done|].
  rewrite filter_cons. destruct (decide (P x)); [by rewrite IH | done].
Qed.

Lemma filter_none {A} (P : A → Prop) `{∀ x, Decision (P x)} (l : list A) :
  filter P l = [] ↔ Forall (λ x, ¬ P x) l.
Proof.
  induction l as [|x l IH]; [by split; [constructor|]|].
  rewrite filter_cons. destruct (decide (P x)) as [HP|HP].
  - split; [done|]. intros [Hn _]%Forall_cons. done.
  - rewrite IH. split; [by constructor | by intros [_ ?]%Forall_cons].
Qed.

Lemma elem_of_key_columns keys x :
  x ∈ key_columns keys ↔ ∃ ck, ck ∈ keys ∧ x ∈ ck_columns ck.
Proof.
  unfold key_columns. rewrite elem_of_union_list. split.
  - intros (X & (ck & -> & Hck)%list_elem_of_fmap & Hx). exists ck. set_solver.
  - intros (ck & Hck & Hx). eexists. split.
    + apply list_elem_of_fmap. by exists ck.
    + set_solver.
Qed.

(** A determinant that shares no column with the keys contains no key,
    unless a key has no column. *)
Lemma transitive_not_superkey keys fd :
  Forall (λ ck, ck_columns ck ≠ []) keys →
  is_transitive (key_columns keys) fd → ¬ contains_key keys fd.
Proof.
  intros Hne [Hdisj _] Hex. apply Exists_exists in Hex as (ck & Hck & Hsub).
  rewrite Forall_forall in Hne. specialize (Hne _ Hck).
  destruct (ck_columns ck) as [|x xs] eqn:Hcols; [done|].
  assert (x ∈ (list_to_set (determinant fd) ∩ key_columns keys : gset string)) as Hin.
  { apply elem_of_intersection. split.
    - apply Hsub. set_solver.
    - apply elem_of_key_columns. exists ck. split; [done|]. rewrite Hcols. by left. }
  rewrite Hdisj in Hin. by apply not_elem_of_empty in Hin.
Qed.

Lemma relevant_all (cs : gset string) (fds : list FD) :
  fd_attrs fds ⊆ cs → relevant cs fds = fds.
Proof.
  intros Hsub. unfold relevant. apply filter_id, Forall_forall. intros fd Hfd. split.
  - intros x Hx%elem_of_list_to_set. apply Hsub, elem_of_fd_attrs. exists fd. auto.
  - apply Hsub, elem_of_fd_attrs. exists fd. auto.
Qed.

End AssessFacts.

(** Without candidate keys the assessment reports no partial dependency
    and reports every confirmed FD both as a transitive dependency and as
    a non-superkey determinant: the level is UNF, or BCNF when no FD is
    confirmed, or 2NF as soon as one is. *)
Theorem assess_without_keys (df : Frame) (fds : list DetectedFD) :
  let r := assess_normal_form df fds [] in
  violations_2nf r = []
  ∧ violations_3nf r = map TransitiveDependency (confirmed_fds fds)
  ∧ violations_bcnf r = map NonSuperkeyDeterminant (confirmed_fds fds)
  ∧ (current_normal_form r = "UNF"
     ∨ (confirmed_fds fds = [] ∧ current_normal_form r = "BCNF")
     ∨ (confirmed_fds fds ≠ [] ∧ current_normal_form r = "2NF")).
Proof.
  assert (filter (is_transitive (key_columns [])) (confirmed_fds fds) = confirmed_fds fds) as H3.
  { apply filter_id, Forall_forall. intros fd _. unfold is_transitive, key_columns. simpl.
    split; set_solver. }
  assert (filter (λ fd, ¬ contains_key [] fd) (confirmed_fds fds) = confirmed_fds fds) as H4.
  { apply filter_id, Forall_forall. intros fd _ Hex. by apply Exists_nil in Hex. }
  unfold assess_normal_form.
  cbn [violations_2nf violations_3nf violations_bcnf current_normal_form].
  rewrite H3, H4.
  split; [done|]. split; [done|]. split; [done|].
  destruct (map NonAtomic _); [|by left]. right.
  change ([] ≫= _) with (@nil nf_violation).
  destruct (confirmed_fds fds); [left | right]; done.
Qed.

(** When every candidate key has at least one column, each FD reported as
    a transitive dependency is also reported as a non-superkey
    determinant; so an assessment without BCNF violations has no 3NF
    violations either. *)
Theorem transitive_violation_is_bcnf_violation (df : Frame) (fds : list DetectedFD)
    (keys : list CandidateKey) :
  Forall (λ ck, ck_columns ck ≠ []) keys →
  let r := assess_normal_form df fds keys in
  (∀ fd, TransitiveDependency fd ∈ violations_3nf r →
         NonSuperkeyDeterminant fd ∈ violations_bcnf r)
  ∧ (violations_bcnf r = [] → violations_3nf r = []).
Proof.
  intros Hne r.
  assert (∀ fd, TransitiveDependency fd ∈ violations_3nf r →
                NonSuperkeyDeterminant fd ∈ violations_bcnf r) as H.
  { subst r. unfold assess_normal_form. cbn [violations_3nf violations_bcnf].
    intros fd (g & [= <-] & [Ht Hg]%list_elem_of_filter)%list_elem_of_fmap.
    apply list_elem_of_fmap. exists fd. split; [done|]. apply list_elem_of_filter.
    split; [|done]. by apply transitive_not_superkey. }
  split; [done|]. intros Hb.
  destruct (violations_3nf r) as [|v vs] eqn:Hv; [done|]. exfalso.
  assert (∃ fd, v = TransitiveDependency fd) as [fd ->].
  { assert (v ∈ violations_3nf r) as Hin by (rewrite Hv; by left).
    subst r. unfold assess_normal_form in Hin. cbn [violations_3nf] in Hin.
    apply list_elem_of_fmap in Hin as (fd & -> & _). by exists fd. }
  specialize (H fd). rewrite Hb in H. eapply elem_of_nil, H. by left.
Qed.

Lemma transitive_violation_is_bcnf_violation_witness :
  let r := assess_normal_form (mkFrame ["a"; "b"] [[Some (VInt 1); Some (VStr "x")]])
     [mkDetected (mkFD ["a"] "b") (mkCheck true (Qmake 10000 10000) 0 (Some 1)) "confirmed"]
     [mkCK ["a"] true] in
  (∀ fd, TransitiveDependency fd ∈ violations_3nf r →
         NonSuperkeyDeterminant fd ∈ violations_bcnf r)
  ∧ (violations_bcnf r = [] → violations_3nf r = []).
Proof.
  refine (transitive_violation_is_bcnf_violation _ _ [mkCK ["a"] true] _).
  apply (bool_decide_unpack _). vm_compute. exact I.
Defined.

(** A relation the assessment finds free of BCNF violations is left whole
    by the BCNF decomposition: when the confirmed FDs mention only the
    frame's columns and every candidate key determines all columns,
    [decompose_bcnf] returns the single table [main]. *)
Theorem assessed_bcnf_is_not_decomposed (df : Frame) (fds : list DetectedFD)
    (keys : list CandidateKey) :
  fd_attrs (confirmed_fds fds) ⊆ list_to_set (df_columns df) →
  Forall (λ ck, list_to_set (df_columns df)
                  ⊆ compute_closure (list_to_set (ck_columns ck)) (confirmed_fds fds)) keys →
  violations_bcnf (assess_normal_form df fds keys) = [] →
  decompose_bcnf (df_columns df) (confirmed_fds fds) keys
  = Some [mkTable "main" (df_columns df)
            (find_key (df_columns df) (confirmed_fds fds) keys) None].
Proof.
  intros Hattrs Hkeys Hb. unfold assess_normal_form in Hb. cbn [violations_bcnf] in Hb.
  apply fmap_nil_inv in Hb. apply filter_none in Hb. rewrite Forall_forall in Hb.
  assert (find_violation (list_to_set (df_columns df))
            (relevant (list_to_set (df_columns df)) (confirmed_fds fds)) = None) as Hv.
  { rewrite relevant_all by done. unfold find_violation. apply find_none_intro.
    intros fd Hfd. apply negb_false_iff. unfold is_superkey. apply bool_decide_eq_true.
    specialize (Hb _ Hfd).
    destruct (decide (contains_key keys fd)) as [Hex|]; [|done].
    apply Exists_exists in Hex as (ck & Hck & Hsub).
    rewrite Forall_forall in Hkeys. etrans; [by apply Hkeys|]. by apply closure_mono. }
  unfold decompose_bcnf. simpl. by rewrite Hv.
Qed.

Lemma assessed_bcnf_is_not_decomposed_witness :
  decompose_bcnf ["a"; "b"]
    (confirmed_fds
       [mkDetected (mkFD ["a"] "b") (mkCheck true (Qmake 10000 10000) 0 (Some 1)) "confirmed"])
    [mkCK ["a"] true]
  = Some [mkTable "main" ["a"; "b"]
            (find_key ["a"; "b"]
               (confirmed_fds
                  [mkDetected (mkFD ["a"] "b") (mkCheck true (Qmake 10000 10000) 0 (Some 1))
                     "confirmed"])
               [mkCK ["a"] true]) None].
Proof.
  apply (assessed_bcnf_is_not_decomposed
           (mkFrame ["a"; "b"] [[Some (VInt 1); Some (VStr "x")]])
           [mkDetected (mkFD ["a"] "b") (mkCheck true (Qmake 10000 10000) 0 (Some 1)) "confirmed"]
           [mkCK ["a"] true]).
  - apply (bool_decide_unpack _). vm_compute. exact I.
  - apply (bool_decide_unpack _). vm_compute. exact I.
  - vm_compute. reflexivity.
Defined.
